(** * handle_music: the batch loops of [resources/actions.py]

    A shallow embedding of the four batch operations of [actions.py]
    ([get_artwork], [id3_correct], [file_copy], [file_move]) together with
    the string, regular-expression, path, tag-library and filesystem
    primitives they call, followed by the properties of the batch
    processor established against that embedding. *)

From Stdlib Require Import Ascii String.
From stdpp Require Import base option list gmap strings.

Set Default Proof Using "Type".

(** ** Python [str]

    A Python string is a sequence of code points; the embedding keeps the
    code points below 256 and represents a string as [list ascii]. String
    literals are written with Rocq string notation and injected by [lit]. *)

Abbreviation str := (list ascii).

Definition lit (s : string) : str := list_ascii_of_string s.
Coercion lit : string >-> list.

Module Py.

(** [c.isspace()] for code points below 256. *)
Definition isspace (c : ascii) : bool :=
  let n := nat_of_ascii c in
  ((9 <=? n) && (n <=? 13)) || ((28 <=? n) && (n <=? 32))
  || (n =? 133) || (n =? 160).

(** [s.lstrip()], [s.rstrip()], [s.strip()] *)
Fixpoint lstrip (s : str) : str :=
  match s with
  | c :: s' => if isspace c then lstrip s' else s
  | [] => []
  end.

Definition rstrip (s : str) : str := rev (lstrip (rev s)).

Definition strip (s : str) : str := rstrip (lstrip s).

(** [s.rstrip(ch)] for a one-character argument *)
Fixpoint lstrip_chr (ch : ascii) (s : str) : str :=
  match s with
  | c :: s' => if decide (c = ch) then lstrip_chr ch s' else s
  | [] => []
  end.

Definition rstrip_chr (ch : ascii) (s : str) : str :=
  rev (lstrip_chr ch (rev s)).

(** [s[:-4]] *)
Definition drop_last4 (s : str) : str := take (length s - 4) s.

(** [s.split(ch)] for a one-character separator; never the empty list. *)
Fixpoint split_chr (ch : ascii) (s : str) : list str :=
  match s with
  | [] => [[]]
  | c :: s' =>
      if decide (c = ch) then [] :: split_chr ch s'
      else match split_chr ch s' with
           | h :: t => (c :: h) :: t
           | [] => [[c]]
           end
  end.

(** [s.rfind(ch) + 1]: one past the last occurrence, 0 when absent. *)
Fixpoint rfind1 (ch : ascii) (s : str) : nat :=
  match s with
  | [] => 0
  | c :: s' =>
      match rfind1 ch s' with
      | 0 => if decide (c = ch) then 1 else 0
      | S k => S (S k)
      end
  end.

(** [s.startswith(ch)], [s.endswith(ch)] *)
Definition startswith_chr (ch : ascii) (s : str) : bool :=
  match s with c :: _ => bool_decide (c = ch) | [] => false end.

Definition endswith_chr (ch : ascii) (s : str) : bool :=
  startswith_chr ch (rev s).

(** [l[i]] for a non-negative index and [l[-1]]; [None] stands for
    [IndexError]. *)
Definition index {A} (l : list A) (i : nat) : option A := l !! i.

Definition index_last {A} (l : list A) : option A := last l.

End Py.

(** ** Regular expressions ([re])

    The patterns of the settings file are regular expressions. The
    embedding works on the parsed pattern and covers literals, [.],
    character sets, concatenation, alternation and the greedy star; groups
    only matter to [re.split] through the extra list entries they add after
    the first one, and none of the loops reads those. Matching is the
    backtracking search of CPython: alternatives left to right, the star
    greedy, the first success wins. *)

Module Re.

Inductive regex : Type :=
| Eps
| Chr (c : ascii)
| Any
| OneOf (cs : list ascii)
| NoneOf (cs : list ascii)
| Cat (r1 r2 : regex)
| Alt (r1 r2 : regex)
| Star (r : regex).

(** [r?] and [r+] *)
Definition Opt (r : regex) : regex := Alt r Eps.
Definition Plus (r : regex) : regex := Cat r (Star r).

(** A pattern without metacharacters (possibly escaped ones, as in
    [feat\.]): the concatenation of its characters. *)
Fixpoint Lit (s : str) : regex :=
  match s with
  | [] => Eps
  | c :: s' => Cat (Chr c) (Lit s')
  end.

Definition newline : ascii := ascii_of_nat 10.

Definition accepts_chr (r : regex) (x : ascii) : bool :=
  match r with
  | Chr c => bool_decide (x = c)
  | Any => negb (bool_decide (x = newline))
  | OneOf cs => bool_decide (x ∈ cs)
  | NoneOf cs => negb (bool_decide (x ∈ cs))
  | _ => false
  end.

(** [rmatch r s k]: match [r] at the head of [s] and hand the rest to the
    continuation [k]; the first success in priority order is returned.
    An iteration of a star that consumes nothing is not repeated. *)
Fixpoint rmatch (r : regex) (s : str) (k : str → option str)
  {struct r} : option str :=
  match r with
  | Eps => k s
  | Chr _ | Any | OneOf _ | NoneOf _ =>
      match s with
      | x :: s' => if accepts_chr r x then k s' else None
      | [] => None
      end
  | Cat r1 r2 => rmatch r1 s (λ s', rmatch r2 s' k)
  | Alt r1 r2 =>
      match rmatch r1 s k with
      | Some e => Some e
      | None => rmatch r2 s k
      end
  | Star r1 =>
      (fix star (n : nat) (s : str) {struct n} : option str :=
         match n with
         | 0 => k s
         | S n' =>
             match rmatch r1 s
                     (λ s', if length s' <? length s then star n' s'
                            else None) with
             | Some e => Some e
             | None => k s
             end
         end) (length s) s
  end.

(** Length of the match of [r] at the head of [s]. With [must_advance]
    an empty match is refused (the matcher backtracks past it). *)
Definition match_here (r : regex) (s : str) (must_advance : bool)
  : option nat :=
  (λ e : str, length s - length e) <$>
    rmatch r s (λ e, if must_advance && (length e =? length s)
                     then None else Some e).

(** [re.search(r, s)] as a truth value. *)
Fixpoint search (r : regex) (s : str) : bool :=
  match match_here r s false with
  | Some _ => true
  | None => match s with
            | [] => false
            | _ :: s' => search r s'
            end
  end.

(** The scan shared by [re.split] and [re.sub]: the successive leftmost
    non-overlapping matches of [r] in [s], as a stream of unmatched
    characters ([inl c]) and matches ([inr m]). [skip] counts the
    characters of [s] still inside the match just reported. After an
    empty match the next match at the same position must be non-empty;
    an empty match right after a non-empty one is reported. *)
Fixpoint scan (r : regex) (s : str) (skip : nat) {struct s}
  : list (ascii + str) :=
  match skip with
  | S k => match s with
           | [] => []
           | _ :: s' => scan r s' k
           end
  | 0 =>
      let step (pre : list (ascii + str)) :=
        match s with
        | [] => pre
        | c :: s' => pre ++ inl c :: scan r s' 0
        end in
      let found (pre : list (ascii + str)) (n : nat) :=
        match s with
        | [] => pre
        | _ :: s' => pre ++ inr (take (S n) s) :: scan r s' n
        end in
      match match_here r s false with
      | None => step []
      | Some (S n) => found [] n
      | Some 0 =>
          match match_here r s true with
          | Some (S n) => found [inr []] n
          | _ => step [inr []]
          end
      end
  end.

(** [re.split(r, s)] *)
Fixpoint pieces (ts : list (ascii + str)) : list str :=
  match ts with
  | [] => [[]]
  | inl c :: ts' =>
      match pieces ts' with
      | h :: t => (c :: h) :: t
      | [] => [[c]]
      end
  | inr _ :: ts' => [] :: pieces ts'
  end.

Definition split (r : regex) (s : str) : list str := pieces (scan r s 0).

(** [re.sub(r, repl, s)] for a replacement without group references *)
Definition sub (r : regex) (repl : str) (s : str) : str :=
  concat ((λ t : ascii + str,
             match t with inl c => [c] | inr _ => repl end) <$> scan r s 0).

End Re.

(** ** Paths ([os.path], POSIX flavour) *)

Module Path.

Definition sep : ascii := "/".

(** [os.path.join(a, b)] *)
Definition join (a b : str) : str :=
  if Py.startswith_chr sep b then b
  else if bool_decide (a = []) || Py.endswith_chr sep a then a ++ b
  else a ++ sep :: b.

(** [os.path.join(a, b, c)] *)
Definition join3 (a b c : str) : str := join (join a b) c.

(** [os.path.split(p)] *)
Definition split (p : str) : str * str :=
  let i := Py.rfind1 sep p in
  let head := take i p in
  let tail := drop i p in
  (if bool_decide (head ≠ [])
      && negb (bool_decide (head = replicate (length head) sep))
   then Py.rstrip_chr sep head else head,
   tail).

(** [os.path.basename(p)] *)
Definition basename (p : str) : str := drop (Py.rfind1 sep p) p.

(** The object a path string names: its non-empty components, below the
    root for an absolute path and below the working directory otherwise.
    The components [.] and [..] and symbolic links are not interpreted. *)
Definition components (p : str) : list str :=
  filter (λ c : str, c ≠ []) (Py.split_chr sep p).

Definition key (p : str) : list str :=
  (if Py.startswith_chr sep p then [[sep]] else []) ++ components p.

Definition parent (k : list str) : list str := removelast k.

End Path.

(** ** The filesystem and the tag containers

    The collaborators of the batch loops ([os], [shutil], [mutagen]) act on
    a tree of directories and MP3 files. A file carries its audio payload,
    whether mutagen finds an MPEG frame in it (the search for the frame
    sync is mutagen's own and is not unfolded here), its ID3 tag container
    ([None]: no ID3 header) and whether it is write-protected. *)

Record picture : Type := Picture {
  pic_mime : str;
  pic_desc : str;
  pic_data : str;
}.

Record id3 : Type := Id3 {
  artist : list str;          (* EasyID3 key 'artist'; [[]]: key absent *)
  title : list str;           (* EasyID3 key 'title' *)
  apic : list picture;        (* attached pictures, one per description *)
}.

Record mp3 : Type := Mp3 {
  audio : str;
  synced : bool;
  tags : option id3;
  readonly : bool;
}.

Inductive node : Type :=
| Dir
| File (f : mp3).

Definition empty_id3 : id3 := Id3 [] [] [].

Definition set_artist (v : str) (t : id3) : id3 := Id3 [v] (title t) (apic t).
Definition set_title (v : str) (t : id3) : id3 := Id3 (artist t) [v] (apic t).

(** [tags.add(frame)] for an APIC frame: a frame with the same description
    is replaced. *)
Definition add_apic (p : picture) (t : id3) : id3 :=
  Id3 (artist t) (title t)
      (filter (λ q, pic_desc q ≠ pic_desc p) (apic t) ++ [p]).

Definition set_tags (t : id3) (f : mp3) : mp3 :=
  Mp3 (audio f) (synced f) (Some t) (readonly f).

Inductive exn : Type :=
| FileNotFoundError | FileExistsError | IsADirectoryError | NotADirectoryError
| PermissionError | OSError | SameFileError | ShutilError
| MutagenError | ID3NoHeaderError | ID3Error
| KeyError | IndexError | TypeError | ValueError | HTTPError.

Inductive logmsg : Type :=
| InvalidDirExists                 (* "_invalid directory already exists." *)
| FolderExists (artist : str)      (* "Folder '{}' already exists." *)
| ErrorCopying (file : str)        (* "Error copying file {}" *)
| ProcessComplete                  (* "Process complete." *)
| Completed (n : nat).             (* "... completed with {} files." *)

(** What a run shows: the items the [for] statement binds (a ghost event),
    the progress bar updates and the logger lines. *)
Inductive event : Type :=
| Item (file : str)
| Progress (count total : nat)
| Log (m : logmsg).

Record state : Type := State {
  fs : gmap (list str) node;
  pg_count : nat;
  pg_total : nat;
  out : list event;
}.

Definition with_fs (m : gmap (list str) node) (s : state) : state :=
  State m (pg_count s) (pg_total s) (out s).

Definition emit (e : event) (s : state) : state :=
  State (fs s) (pg_count s) (pg_total s) (out s ++ [e]).

(** ** Computations that may raise *)

Inductive result (A : Type) : Type :=
| Ok (a : A) (s : state)
| Raise (e : exn) (s : state).
Arguments Ok {A} a s.
Arguments Raise {A} e s.

Definition M (A : Type) : Type := state → result A.

Global Instance M_ret : MRet M := λ A a s, Ok a s.
Global Instance M_bind : MBind M := λ A B f m s,
  match m s with
  | Ok a s' => f a s'
  | Raise e s' => Raise e s'
  end.

Definition raise {A} (e : exn) : M A := λ s, Raise e s.

(** [try: m except: h] with a bare [except] *)
Definition try_except {A} (m : M A) (h : M A) : M A := λ s,
  match m s with
  | Ok a s' => Ok a s'
  | Raise _ s' => h s'
  end.

(** [try: m except OSError as e: h e] *)
Definition try_with {A} (m : M A) (h : exn → M A) : M A := λ s,
  match m s with
  | Ok a s' => Ok a s'
  | Raise e s' => h e s'
  end.

(** [try: m except E: h] *)
Definition try_except_only {A} (m : M A) (caught : exn → bool) (h : M A)
  : M A := λ s,
  match m s with
  | Ok a s' => Ok a s'
  | Raise e s' => if caught e then h s' else Raise e s'
  end.

Definition get : M state := λ s, Ok s s.
Definition modify (f : state → state) : M unit := λ s, Ok () (f s).
Definition write (e : event) : M unit := modify (emit e).

Definition final {A} (r : result A) : state :=
  match r with Ok _ s => s | Raise _ s => s end.

Definition raised {A} (r : result A) : option exn :=
  match r with Ok _ _ => None | Raise e _ => Some e end.

Definition returned {A} (r : result A) : option A :=
  match r with Ok a _ => Some a | Raise _ _ => None end.

(** ** [os] *)

Module Os.

Definition lookup (p : str) (s : state) : option node :=
  if bool_decide (p = []) then None else fs s !! Path.key p.

(** [os.path.isdir(p)], [os.path.exists(p)] *)
Definition isdir (p : str) (s : state) : bool :=
  match lookup p s with Some Dir => true | _ => false end.

Definition exists_ (p : str) (s : state) : bool :=
  match lookup p s with Some _ => true | None => false end.

(** The directory that is to hold the entry [k] must exist. *)
Definition parent_check (k : list str) (s : state) : option exn :=
  match fs s !! Path.parent k with
  | Some Dir => None
  | Some (File _) => Some NotADirectoryError
  | None => Some FileNotFoundError
  end.

(** [os.mkdir(p)] *)
Definition mkdir (p : str) : M unit := λ s,
  if bool_decide (p = []) then Raise FileNotFoundError s else
  let k := Path.key p in
  match fs s !! k with
  | Some _ => Raise FileExistsError s
  | None =>
      match parent_check k s with
      | Some e => Raise e s
      | None => Ok () (with_fs (<[k := Dir]> (fs s)) s)
      end
  end.

Fixpoint strip_prefix (p k : list str) : option (list str) :=
  match p, k with
  | [], _ => Some k
  | x :: p', y :: k' => if decide (x = y) then strip_prefix p' k' else None
  | _ :: _, [] => None
  end.

Definition has_children (k : list str) (m : gmap (list str) node) : bool :=
  map_fold (λ k' _ b,
              b || match strip_prefix k k' with
                   | Some (_ :: _) => true
                   | _ => false
                   end) false m.

Definition move_subtree (src dst : list str) (m : gmap (list str) node)
  : gmap (list str) node :=
  map_fold (λ k v acc,
              match strip_prefix src k with
              | Some rest => <[dst ++ rest := v]> acc
              | None => <[k := v]> acc
              end) ∅ m.

(** [os.rename(src, dst)]: a file replaces an existing file silently; a
    directory moves with everything below it. *)
Definition rename (src dst : str) : M unit := λ s,
  if bool_decide (src = []) || bool_decide (dst = [])
  then Raise FileNotFoundError s else
  let ks := Path.key src in
  let kd := Path.key dst in
  match fs s !! ks with
  | None => Raise FileNotFoundError s
  | Some n =>
      if bool_decide (ks = kd) then Ok () s else
      match parent_check kd s with
      | Some e => Raise e s
      | None =>
          match n, fs s !! kd with
          | File _, Some Dir => Raise IsADirectoryError s
          | File f, _ =>
              Ok () (with_fs (<[kd := File f]> (delete ks (fs s))) s)
          | Dir, Some (File _) => Raise NotADirectoryError s
          | Dir, _ =>
              if bool_decide (is_Some (strip_prefix ks kd))
                 || has_children kd (fs s)
              then Raise OSError s
              else Ok () (with_fs (move_subtree ks kd (fs s)) s)
          end
      end
  end.

(** [os.unlink(p)] *)
Definition unlink (p : str) : M unit := λ s,
  match lookup p s with
  | None => Raise FileNotFoundError s
  | Some Dir => Raise IsADirectoryError s
  | Some (File _) => Ok () (with_fs (delete (Path.key p) (fs s)) s)
  end.

End Os.

(** ** [shutil] *)

Module Shutil.

Definition samefile (src dst : str) (s : state) : bool :=
  Os.exists_ src s && Os.exists_ dst s
  && bool_decide (Path.key src = Path.key dst).

(** [shutil.copy2(src, dst)]: contents and permission bits. *)
Definition copy2 (src dst : str) : M unit := λ s,
  let dst := if Os.isdir dst s then Path.join dst (Path.basename src)
             else dst in
  if samefile src dst s then Raise SameFileError s else
  match Os.lookup src s with
  | None => Raise FileNotFoundError s
  | Some Dir => Raise IsADirectoryError s
  | Some (File f) =>
      if bool_decide (dst = []) then Raise FileNotFoundError s else
      let kd := Path.key dst in
      match fs s !! kd with
      | Some Dir => Raise IsADirectoryError s
      | Some (File g) =>
          if readonly g then Raise PermissionError s
          else Ok () (with_fs (<[kd := File f]> (fs s)) s)
      | None =>
          match Os.parent_check kd s with
          | Some e => Raise e s
          | None => Ok () (with_fs (<[kd := File f]> (fs s)) s)
          end
      end
  end.

(** [shutil.move(src, dst)]. When [os.rename] fails a file is copied and
    unlinked. The loops only move what [EasyID3] has just read as a
    file; the fallback for directories ([copytree]) is left out and the
    error of the rename stands. *)
Definition move (src dst : str) : M unit :=
  s ← get;
  if Os.isdir dst s && samefile src dst s then Os.rename src dst else
  real_dst ← (if Os.isdir dst s then
                let d := Path.join dst
                           (Path.basename (Py.rstrip_chr Path.sep src)) in
                if Os.exists_ d s then raise ShutilError else mret d
              else mret dst : M str);
  try_with (Os.rename src real_dst)
    (λ e, s' ← get;
          if Os.isdir src s' then raise e
          else copy2 src real_dst;; Os.unlink src).

End Shutil.

(** ** [mutagen] *)

Module Mutagen.

Definition read (p : str) : M mp3 := λ s,
  match Os.lookup p s with
  | Some (File f) => Ok f s
  | _ => Raise MutagenError s
  end.

(** [MP3(file, ID3=ID3)]: the tags held in memory, [None] without an ID3
    header. Loading parses the audio as well and raises
    [HeaderNotFoundError], a [MutagenError], when no MPEG frame is found. *)
Definition MP3 (file : str) : M (option id3) :=
  f ← read file;
  if synced f then mret (tags f) else raise MutagenError.

(** [tmp_file.add_tags()]: raises [mutagen.id3.error] when the object
    already has tags; nothing is written to the file. *)
Definition add_tags (t : option id3) : M (option id3) :=
  match t with
  | None => mret (Some empty_id3)
  | Some _ => raise ID3Error
  end.

(** [EasyID3(file)] *)
Definition EasyID3 (file : str) : M id3 :=
  f ← read file;
  match tags f with
  | None => raise ID3NoHeaderError
  | Some t => mret t
  end.

(** [tag_list["artist"]] *)
Definition getitem_artist (t : id3) : M (list str) :=
  match artist t with
  | [] => raise KeyError
  | l => mret l
  end.

(** A text frame is written unless its text is empty: [str(frame)], the
    values joined by NUL, has length 0 for no value and for one empty
    value only. The key of a frame that is not written is absent from
    the file afterwards. *)
Definition text_frame (l : list str) : list str :=
  match l with
  | [[]] => []
  | _ => l
  end.

(** What [.save()] writes of the tags [t]. *)
Definition written (t : id3) : id3 :=
  Id3 (text_frame (artist t)) (text_frame (title t)) (apic t).

(** [.save()] of an object loaded from [file] whose tags are now [t]; a
    file that cannot be opened for writing gives a [MutagenError]. *)
Definition save (file : str) (t : id3) : M unit := λ s,
  match Os.lookup file s with
  | Some (File f) =>
      if readonly f then Raise MutagenError s
      else Ok () (with_fs (<[Path.key file :=
                               File (set_tags (written t) f)]> (fs s)) s)
  | _ => Raise MutagenError s
  end.

End Mutagen.

(** ** [discogs_client]

    The authenticated client [ds]. A search is lazy: the request is made,
    and may fail, when a result is first indexed; reading [.images] of a
    result is a further request. *)

Record provider : Type := Provider {
  search : str → exn + list (exn + list str);
  fetch : str → exn + (str * nat);      (* content and HTTP status *)
}.

Definition lift_sum {A} (x : exn + A) : M A :=
  match x with inl e => raise e | inr a => mret a end.

Definition lift_index {A} (x : option A) : M A :=
  match x with None => raise IndexError | Some a => mret a end.

(** ** The progress bar *)

(** Modelled from the spec: [per_tools.ProgressBar] is not part of the
    sources at hand. The spec describes the progress state as "count
    processed / total" with a "print-style progress indicator, advanced
    once per processed item": the bar is created with the total and a count
    of zero, [print] shows count and total, [inc_and_print] adds one to the
    count and shows it. *)
Module ProgressBar.

Definition new (total : nat) : M unit :=
  modify (λ s, State (fs s) 0 total (out s)).

Definition print : M unit :=
  s ← get; write (Progress (pg_count s) (pg_total s)).

Definition inc_and_print : M unit :=
  modify (λ s, State (fs s) (S (pg_count s)) (pg_total s) (out s));;
  print.

End ProgressBar.

(** ** The settings

    [sd.settings] is read from a configuration file that is not part of the
    sources; the four patterns the loops use are taken as given. *)

Record settings : Type := Settings {
  and_tags : Re.regex;
  feature_tags : Re.regex;
  feature2_tags : Re.regex;
  invalid_tags : Re.regex;
}.

(** [for x in l: body(x)] over a list the body does not change *)
Fixpoint for_each {A} (body : A → M unit) (l : list A) : M unit :=
  match l with
  | [] => mret ()
  | x :: l' => body x;; for_each body l'
  end.

(** [l[0]] of a list that [re.split] returned *)
Definition first_piece (l : list str) : str := hd [] l.

(** [files.remove(x)]: the first occurrence goes, [ValueError] when there
    is none. *)
Fixpoint list_remove (x : str) (l : list str) : option (list str) :=
  match l with
  | [] => None
  | y :: l' => if decide (x = y) then Some l' else (y ::.) <$> list_remove x l'
  end.

Definition is_id3_error (e : exn) : bool :=
  match e with ID3Error | ID3NoHeaderError => true | _ => false end.

Definition is_file_exists (e : exn) : bool :=
  match e with FileExistsError => true | _ => false end.

Section Batch.

Variable cfg : settings.

(** *** [get_artwork], from "Setting up progress bar" on *)

(** lines 186-188 *)
Definition artwork_artist (tag_list : id3) : M str :=
  l ← Mutagen.getitem_artist tag_list;
  artist ← lift_index (Py.index l 0);
  let artist := Py.strip (first_piece (Re.split (and_tags cfg) artist)) in
  let artist := Py.strip (first_piece (Re.split (feature_tags cfg) artist)) in
  mret artist.

(** lines 194-197 and 199-202: the image of result [i], its type and its
    bytes *)
Definition artwork_fetch (ds : provider)
    (results : exn + list (exn + list str)) (i : nat) : M (str * str) :=
  rs ← lift_sum results;
  r ← lift_index (Py.index rs i);
  images ← lift_sum r;
  image ← lift_index (Py.index images 0);
  type_ ← lift_index (Py.index_last (Py.split_chr "." image));
  '(content, resp) ← lift_sum (fetch ds image);
  mret (type_, content).

(** lines 203-211: [tmp_file.tags.add(APIC(...))] *)
Definition artwork_embed (tmp_file : option id3) (type_ content : str)
  : M id3 :=
  match tmp_file with
  | Some t => mret (add_apic (Picture ("image/" ++ type_) "Cover" content) t)
  | None => raise TypeError
  end.

(** lines 193-212: the body of the outer [try] *)
Definition artwork_try (ds : provider) (file : str)
    (tmp_file : option id3) (results : exn + list (exn + list str))
  : M unit :=
  '(type_, content) ← try_except (artwork_fetch ds results 0)
                                  (artwork_fetch ds results 1);
  t ← artwork_embed tmp_file type_ content;
  Mutagen.save file t.

(** lines 175-217 *)
Definition artwork_item (ds : provider) (file : str) : M unit :=
  write (Item file);;
  tmp_file ← Mutagen.MP3 file;
  tmp_file ← try_except_only (Mutagen.add_tags tmp_file)
                is_id3_error (mret tmp_file);
  tag_list ← Mutagen.EasyID3 file;
  artist ← artwork_artist tag_list;
  let results := search ds artist in
  try_except (artwork_try ds file tmp_file results) (mret ());;
  ProgressBar.inc_and_print.

Definition get_artwork (ds : provider) (files : list str) : M (list str) :=
  ProgressBar.new (length files);;
  ProgressBar.print;;
  for_each (artwork_item ds) files;;
  write (Log ProcessComplete);;
  write (Log (Completed (length files)));;
  mret files.

(** *** [id3_correct], from "Initialise list of tags" on *)

Variable source : str.       (* [sd.source] *)

(** lines 292-318; [files] is the list object the loop runs over, and
    the value returned is that object after the body. *)
Definition id3_item (files : list str) (file : str) : M (list str) :=
  write (Item file);;
  let '(head, basename) := Path.split file in
  let basename := Re.sub (feature_tags cfg) " ft. " basename in
  let basename := Re.sub (feature2_tags cfg) "(ft. " basename in
  let tmp_file := Path.join head basename in
  Os.rename file tmp_file;;
  let file := tmp_file in
  let tags := Re.split (Re.Lit " - ") basename in
  files ←
    (if Re.search (invalid_tags cfg) basename || negb (length tags =? 2)
     then
       Os.rename file (Path.join3 source "_invalid" basename);;
       match list_remove file files with
       | Some files' => mret files'
       | None => raise ValueError
       end
     else
       tag ← Mutagen.EasyID3 file;
       t0 ← lift_index (Py.index tags 0);
       let artist_name := Py.strip t0 in
       let tag := set_artist artist_name tag in
       t1 ← lift_index (Py.index tags 1);
       let title_name := Py.strip (Py.drop_last4 t1) in
       let tag := set_title title_name tag in
       Mutagen.save file tag;;
       mret files);
  ProgressBar.inc_and_print;;
  mret files.

(** [for file in files:] over the list object the body shrinks: the
    iterator keeps an index into the current list. [None]: out of
    [fuel]. *)
Fixpoint id3_loop (fuel : nat) (files : list str) (i : nat) (s : state)
  : option (result (list str)) :=
  match files !! i with
  | None => Some (Ok files s)
  | Some file =>
      match fuel with
      | 0 => None
      | S fuel' =>
          match id3_item files file s with
          | Ok files' s' => id3_loop fuel' files' (S i) s'
          | Raise e s' => Some (Raise e s')
          end
      end
  end.

Definition id3_prelude (files : list str) : M unit :=
  try_except (Os.mkdir (Path.join source "_invalid"))
             (write (Log InvalidDirExists));;
  ProgressBar.new (length files);;
  ProgressBar.print.

Definition id3_epilogue (files : list str) : M (list str) :=
  write (Log ProcessComplete);;
  write (Log (Completed (length files)));;
  mret files.

Definition id3_correct (files : list str) (s : state)
  : option (result (list str)) :=
  match id3_prelude files s with
  | Raise e s' => Some (Raise e s')
  | Ok _ s1 =>
      match id3_loop (length files) files 0 s1 with
      | Some (Ok files' s2) => Some (id3_epilogue files' s2)
      | r => r
      end
  end.

(** *** [file_copy] and [file_move], from the progress bar on *)

Variable destination : str.

(** lines 399-401 *)
Definition copy_artist (tag_list : id3) : M str :=
  l ← Mutagen.getitem_artist tag_list;
  artist ← lift_index (Py.index l 0);
  let artist := Py.strip (first_piece (Re.split (and_tags cfg) artist)) in
  let artist := Py.strip (first_piece (Re.split (feature_tags cfg) artist)) in
  mret artist.

(** lines 396-414 *)
Definition copy_item (file : str) : M unit :=
  write (Item file);;
  tag_list ← Mutagen.EasyID3 file;
  artist ← copy_artist tag_list;
  try_except_only (Os.mkdir (Path.join destination artist))
                  is_file_exists (write (Log (FolderExists artist)));;
  let basename := Path.basename file in
  try_except (Shutil.copy2 file (Path.join3 destination artist basename))
             (write (Log (ErrorCopying file)));;
  ProgressBar.inc_and_print.

Definition file_copy (files : list str) : M (list str) :=
  ProgressBar.new (length files);;
  ProgressBar.print;;
  for_each copy_item files;;
  write (Log ProcessComplete);;
  write (Log (Completed (length files)));;
  mret files.

(** lines 495-497 *)
Definition move_artist (tag_list : id3) : M str :=
  l ← Mutagen.getitem_artist tag_list;
  artist ← lift_index (Py.index l 0);
  let artist := Py.strip (first_piece (Re.split (and_tags cfg) artist)) in
  let artist := Py.strip (first_piece (Re.split (feature_tags cfg) artist)) in
  mret artist.

(** lines 492-510 *)
Definition move_item (file : str) : M unit :=
  write (Item file);;
  tag_list ← Mutagen.EasyID3 file;
  artist ← move_artist tag_list;
  try_except_only (Os.mkdir (Path.join destination artist))
                  is_file_exists (write (Log (FolderExists artist)));;
  let basename := Path.basename file in
  try_except (Shutil.move file (Path.join3 destination artist basename))
             (write (Log (ErrorCopying file)));;
  ProgressBar.inc_and_print.

Definition file_move (files : list str) : M (list str) :=
  ProgressBar.new (length files);;
  ProgressBar.print;;
  for_each move_item files;;
  write (Log ProcessComplete);;
  write (Log (Completed (length files)));;
  mret files.

End Batch.


(** ** Reading a run *)

Definition visited (l : list event) : list str :=
  omap (λ e, match e with Item f => Some f | _ => None end) l.

Definition progress (l : list event) : list (nat * nat) :=
  omap (λ e, match e with Progress c t => Some (c, t) | _ => None end) l.

Module Spec.

(** The text before the leftmost match of [r] in [s], all of [s] when
    there is none: "taking the first segment" of a split. *)
Fixpoint first_segment (r : Re.regex) (s : str) : str :=
  match Re.match_here r s false with
  | Some _ => []
  | None => match s with
            | [] => []
            | c :: s' => c :: first_segment r s'
            end
  end.

Definition primary_artist (cfg : settings) (tag_artist : str) : str :=
  let a := Py.strip (first_segment (and_tags cfg) tag_artist) in
  Py.strip (first_segment (feature_tags cfg) a).

End Spec.

(** ** A small collection, for the examples *)

Module Sample.

Definition cfg : settings :=
  Settings (Re.Alt (Re.Lit " & ") (Re.Lit " and ")) (Re.Lit " feat. ")
           (Re.Lit "(feat. ") (Re.Lit "Unknown").

Definition frames : str := "mpeg frames".

(** A file without ID3 header, one with an empty tag container, one with
    artist and title. *)
Definition untagged : mp3 := Mp3 frames true None false.
Definition blank : mp3 := Mp3 frames true (Some empty_id3) false.
Definition song (a t : str) : mp3 :=
  Mp3 frames true (Some (Id3 [a] [t] [])) false.

Definition tree (l : list (str * node)) : gmap (list str) node :=
  list_to_map ((λ pn : str * node, (Path.key pn.1, pn.2)) <$> l).

Definition start (m : gmap (list str) node) : state := State m 0 0 [].

Definition bad : str := "/music/BadFormat.mp3".
Definition one : str := "/music/Artist A - Song One.mp3".
Definition two : str := "/music/Artist B - Song Two.mp3".

(** [/music] holds a badly named file and a well named one. *)
Definition music : gmap (list str) node :=
  tree [(lit "", Dir); (lit "/", Dir); (lit "/music", Dir);
        (bad, File blank); (one, File blank)].

(** [/music] holds two well named files, the first without ID3 header. *)
Definition headerless : gmap (list str) node :=
  tree [(lit "", Dir); (lit "/", Dir); (lit "/music", Dir);
        (one, File untagged); (two, File (song "Artist B" "Song Two"))].

(** A provider that finds nothing, and one that serves one cover. *)
Definition silent : provider :=
  Provider (λ _, inr []) (λ _, inl HTTPError).

Definition cover : str := "https://img.example/a.jpeg".

Definition serving : provider :=
  Provider (λ _, inr [inr [cover]])
           (λ uri, if decide (uri = cover) then inr (lit "JFIF", 200)
                   else inl HTTPError).

(** A provider whose image server answers every request with an error
    page and the status 404, without raising. *)
Definition refusing : provider :=
  Provider (λ _, inr [inr [cover]]) (λ _, inr (lit "404 Not Found", 404)).

(** [/music] holds two tagged files, [/sorted] a folder for one of the
    artists already. *)
Definition library : gmap (list str) node :=
  tree [(lit "", Dir); (lit "/", Dir); (lit "/music", Dir);
        (lit "/music/_invalid", Dir);
        (one, File (song "Artist A feat. Artist B" "Song One"));
        (two, File (song "Artist B" "Song Two"));
        (lit "/sorted", Dir); (lit "/sorted/Artist B", Dir)].

End Sample.

(** ** The shape of a run *)

(** What the loop prints for the items it completes: item [j] (counting
    from [k]) is bound and then the bar shows [j] of [total]. *)
Fixpoint rounds (total k : nat) (done : list str) : list event :=
  match done with
  | [] => []
  | f :: done' => Item f :: Progress k total :: rounds total (S k) done'
  end.

(** [s'] shows what [s] shows and the bar stands where it stood. *)
Definition same_io (s s' : state) : Prop :=
  out s' = out s ∧ pg_count s' = pg_count s ∧ pg_total s' = pg_total s.

(** A computation that neither prints nor touches the bar. *)
Definition quiet {A} (m : M A) : Prop := ∀ s, same_io s (final (m s)).

(** A computation that, when it returns, has advanced the bar once and
    shown it, and printed nothing else; when it raises it has printed
    nothing. *)
Definition advances {A} (m : M A) : Prop := ∀ s,
  match m s with
  | Ok _ s' =>
      out s' = out s ++ [Progress (S (pg_count s)) (pg_total s)]
      ∧ pg_count s' = S (pg_count s) ∧ pg_total s' = pg_total s
  | Raise _ s' => same_io s s'
  end.

(** The file can be opened, mutagen finds its MPEG frames, and its tags
    carry an artist whose text is not empty. *)
Definition readable (file : str) (s : state) : Prop :=
  ∃ f t, Os.lookup file s = Some (File f) ∧ synced f = true
         ∧ tags f = Some t ∧ Mutagen.text_frame (artist t) ≠ [].

(** One turn of a loop over [file]: the item is bound; when the body
    returns the bar has advanced once and been shown once, when the body
    raises nothing more is shown. *)
Definition item_run {A} (m : M A) (file : str) : Prop := ∀ s,
  match m s with
  | Ok _ s' =>
      out s' = out s ++ [Item file; Progress (S (pg_count s)) (pg_total s)]
      ∧ pg_count s' = S (pg_count s) ∧ pg_total s' = pg_total s
  | Raise _ s' =>
      out s' = out s ++ [Item file]
      ∧ pg_count s' = pg_count s ∧ pg_total s' = pg_total s
  end.

(** A computation without any effect on the state. *)
Definition pure {A} (m : M A) : Prop := ∀ s, final (m s) = s.

(** ** Copy and move, as the specification words them

    "Derive the artist folder name using the same strip-collaborators
    logic, ensure that destination subfolder exists (already exists is not
    an error), then copy or move the file into it, preserving the
    basename": one turn, with the final action left open. *)

Module Transfer.

Definition destination_path (cfg : settings) (destination a file : str)
  : str :=
  Path.join3 destination (Spec.primary_artist cfg a) (Path.basename file).

Definition item (cfg : settings) (destination : str)
    (action : str → str → M unit) (file : str) : M unit :=
  write (Item file);;
  tag_list ← Mutagen.EasyID3 file;
  l ← Mutagen.getitem_artist tag_list;
  a ← lift_index (Py.index l 0);
  let folder := Spec.primary_artist cfg a in
  try_except_only (Os.mkdir (Path.join destination folder))
                  is_file_exists (write (Log (FolderExists folder)));;
  try_except (action file (destination_path cfg destination a file))
             (write (Log (ErrorCopying file)));;
  ProgressBar.inc_and_print.

(** The batch: the bar is set up and shown, every file of the list gets
    its turn in order, the end is logged and the list handed back. *)
Definition run (cfg : settings) (destination : str)
    (action : str → str → M unit) (files : list str) : M (list str) :=
  ProgressBar.new (length files);;
  ProgressBar.print;;
  for_each (item cfg destination action) files;;
  write (Log ProcessComplete);;
  write (Log (Completed (length files)));;
  mret files.

End Transfer.

(** ** Names [id3_correct] can tag

    A file name the loop of [id3_correct] tags as it stands: the two
    feature patterns and the invalid pattern do not occur in it, and
    [" - "] cuts it in two. *)
Definition well_named (cfg : settings) (file : str) : Prop :=
  Re.search (feature_tags cfg) (Path.basename file) = false
  ∧ Re.search (feature2_tags cfg) (Path.basename file) = false
  ∧ Re.search (invalid_tags cfg) (Path.basename file) = false
  ∧ length (Re.split (Re.Lit " - ") (Path.basename file)) = 2.

(** The tags lines 310-315 derive from a file name. *)
Definition name_tags (file : str) (t : id3) : id3 :=
  let parts := Re.split (Re.Lit " - ") (Path.basename file) in
  Id3 [Py.strip (parts !!! 0)] [Py.strip (Py.drop_last4 (parts !!! 1))] (apic t).

(** The file can be opened, has an ID3 header and can be written. *)
Definition taggable (file : str) (s : state) : Prop :=
  ∃ f t, Os.lookup file s = Some (File f) ∧ tags f = Some t
         ∧ readonly f = false.

(** ** Providers and files, compared

    The provider [ds] answering every fetch that succeeds with the HTTP
    status [st]. *)
Definition with_status (st : nat) (ds : provider) : provider :=
  Provider (search ds)
           (λ uri, match fetch ds uri with
                   | inr (content, _) => inr (content, st)
                   | inl e => inl e
                   end).

(** Every file of [s] is a file of [s'], write-protected or not as before
    and with an ID3 header exactly when it had one. *)
Definition files_kept (s s' : state) : Prop :=
  ∀ p f, Os.lookup p s = Some (File f) →
    ∃ f', Os.lookup p s' = Some (File f')
          ∧ readonly f' = readonly f
          ∧ (tags f' = None ↔ tags f = None).

(** A computation during which no item is bound. *)
Definition binds_nothing {A} (m : M A) : Prop :=
  ∀ s, visited (out (final (m s))) = visited (out s).

(** * Properties *)

(** ** Reading the outcome of a run *)

Lemma run_returned {A} (r : result A) a :
  returned r = Some a → r = Ok a (final r).
Proof. destruct r; simpl; congruence. Qed.

Lemma run_raised {A} (r : result A) e :
  raised r = Some e → r = Raise e (final r).
Proof. destruct r; simpl; congruence. Qed.

Lemma loop_returned {A} (r : option (result A)) a s0 :
  r ≫= returned = Some a → r = Some (Ok a (from_option final s0 r)).
Proof. destruct r as [[]|]; simpl; congruence. Qed.

Lemma loop_raised {A} (r : option (result A)) e s0 :
  r ≫= raised = Some e → r = Some (Raise e (from_option final s0 r)).
Proof. destruct r as [[]|]; simpl; congruence. Qed.

(** ** Splitting and substitution *)

Lemma pieces_nonempty ts : Re.pieces ts ≠ [].
Proof. induction ts as [|[c|m] ts IH]; simpl; [done| |done]. by destruct (Re.pieces ts). Qed.

Lemma first_piece_inl c ts :
  first_piece (Re.pieces (inl c :: ts)) = c :: first_piece (Re.pieces ts).
Proof.
  simpl. pose proof (pieces_nonempty ts). by destruct (Re.pieces ts).
Qed.

Lemma first_piece_split r s :
  first_piece (Re.split r s) = Spec.first_segment r s.
Proof.
  unfold Re.split. induction s as [|c s IH].
  - simpl. destruct (Re.match_here r [] false) as [[|n]|]; [|done..].
    by destruct (Re.match_here r [] true) as [[|n]|].
  - cbn [Re.scan Spec.first_segment].
    destruct (Re.match_here r (c :: s) false) as [[|n]|]; [|done|].
    + by destruct (Re.match_here r (c :: s) true) as [[|n]|].
    + rewrite app_nil_l, first_piece_inl. by rewrite IH.
Qed.

Lemma first_segment_no_match r s :
  Re.search r s = false → Spec.first_segment r s = s.
Proof.
  induction s as [|c s IH]; simpl.
  - by destruct (Re.match_here r [] false).
  - destruct (Re.match_here r (c :: s) false); [done|].
    intros H. by rewrite IH.
Qed.


(** ** [id3_correct] on a batch with a badly named file first *)

(** C1. The list [id3_correct] returns for the batch [bad; one] contains
    [one], a file the loop never bound: removing [bad] from the list
    while iterating over it moved [one] under the iterator. The file keeps
    its name and its tags. *)
Theorem id3_correct_returns_unattempted_file :
  ∃ s', id3_correct Sample.cfg "/music" [Sample.bad; Sample.one]
          (Sample.start Sample.music) = Some (Ok [Sample.one] s')
        ∧ visited (out s') = [Sample.bad]
        ∧ fs s' !! Path.key Sample.one = Some (File Sample.blank).
Proof.
  eexists. split; [|split].
  - apply (loop_returned _ _ (Sample.start Sample.music)).
    vm_compute. reflexivity.
  - vm_compute. reflexivity.
  - vm_compute. reflexivity.
Qed.

(** C3. On the same batch of two items one item is classified (the
    quarantined [bad]: relocated, no longer in the list) and none is
    tagged or failed: one terminal classification for two inputs. *)
Theorem id3_correct_leaves_item_unclassified :
  ∃ files' s', id3_correct Sample.cfg "/music" [Sample.bad; Sample.one]
                 (Sample.start Sample.music) = Some (Ok files' s')
        ∧ length (visited (out s')) = 1
        ∧ length [Sample.bad; Sample.one] = 2
        ∧ fs s' !! Path.key "/music/_invalid/BadFormat.mp3"
          = Some (File Sample.blank)
        ∧ fs s' !! Path.key Sample.one = fs (Sample.start Sample.music) !! Path.key Sample.one.
Proof.
  exists [Sample.one]. eexists. split; [|split; [|split; [|split]]].
  - apply (loop_returned _ _ (Sample.start Sample.music)).
    vm_compute. reflexivity.
  - vm_compute. reflexivity.
  - reflexivity.
  - vm_compute. reflexivity.
  - vm_compute. reflexivity.
Qed.


(** ** Printing and the progress bar *)

Lemma same_io_refl s : same_io s s.
Proof. done. Qed.

Lemma same_io_trans s1 s2 s3 : same_io s1 s2 → same_io s2 s3 → same_io s1 s3.
Proof. unfold same_io. intros (?&?&?) (?&?&?). repeat split; congruence. Qed.

Lemma same_io_with_fs m s : same_io s (with_fs m s).
Proof. done. Qed.

Create HintDb io discriminated.
#[global] Hint Resolve same_io_refl same_io_with_fs : io.

Lemma quiet_ret {A} (a : A) : quiet (mret a : M A).
Proof. intros s. apply same_io_refl. Qed.

Lemma quiet_raise {A} e : quiet (raise e : M A).
Proof. intros s. apply same_io_refl. Qed.

Lemma quiet_get : quiet get.
Proof. intros s. apply same_io_refl. Qed.

Lemma quiet_bind {A B} (m : M A) (f : A → M B) :
  quiet m → (∀ a, quiet (f a)) → quiet (m ≫= f).
Proof.
  intros Hm Hf s. specialize (Hm s). unfold mbind, M_bind.
  destruct (m s) as [a s1|e s1]; simpl in *; [|done].
  eapply same_io_trans; [done|apply Hf].
Qed.

Lemma quiet_try_except {A} (m h : M A) : quiet m → quiet h → quiet (try_except m h).
Proof.
  intros Hm Hh s. specialize (Hm s). unfold try_except.
  destruct (m s) as [a s1|e s1]; simpl in *; [done|].
  eapply same_io_trans; [done|apply Hh].
Qed.

Lemma quiet_try_except_only {A} (m h : M A) c :
  quiet m → quiet h → quiet (try_except_only m c h).
Proof.
  intros Hm Hh s. specialize (Hm s). unfold try_except_only.
  destruct (m s) as [a s1|e s1]; simpl in *; [done|].
  destruct (c e); [|done]. eapply same_io_trans; [done|apply Hh].
Qed.

Lemma quiet_try_with {A} (m : M A) h :
  quiet m → (∀ e, quiet (h e)) → quiet (try_with m h).
Proof.
  intros Hm Hh s. specialize (Hm s). unfold try_with.
  destruct (m s) as [a s1|e s1]; simpl in *; [done|].
  eapply same_io_trans; [done|apply Hh].
Qed.

Lemma quiet_lift_sum {A} (x : exn + A) : quiet (lift_sum x).
Proof. destruct x; [apply quiet_raise|apply quiet_ret]. Qed.

Lemma quiet_lift_index {A} (x : option A) : quiet (lift_index x).
Proof. destruct x; [apply quiet_ret|apply quiet_raise]. Qed.

Ltac quiet_prim :=
  let s := fresh "s" in
  intros s; repeat (simpl; case_match); simpl; auto with io.

Lemma quiet_mkdir p : quiet (Os.mkdir p).
Proof. unfold Os.mkdir. quiet_prim. Qed.

Lemma quiet_rename a b : quiet (Os.rename a b).
Proof. unfold Os.rename. quiet_prim. Qed.

Lemma quiet_unlink p : quiet (Os.unlink p).
Proof. unfold Os.unlink. quiet_prim. Qed.

Lemma quiet_copy2 a b : quiet (Shutil.copy2 a b).
Proof. unfold Shutil.copy2. quiet_prim. Qed.

#[global] Hint Resolve quiet_ret quiet_raise quiet_get quiet_bind
  quiet_try_except quiet_try_except_only quiet_try_with quiet_lift_sum
  quiet_lift_index quiet_mkdir quiet_rename quiet_unlink quiet_copy2 : io.

Lemma quiet_move a b : quiet (Shutil.move a b).
Proof.
  unfold Shutil.move. apply quiet_bind; [auto with io|]. intros s.
  repeat case_match; auto 10 with io.
  all: apply quiet_bind; auto with io; intros; apply quiet_try_with; auto with io;
    intros; apply quiet_bind; auto with io; intros; case_match; auto with io.
Qed.

Lemma quiet_read p : quiet (Mutagen.read p).
Proof. unfold Mutagen.read. quiet_prim. Qed.

Lemma quiet_save p t : quiet (Mutagen.save p t).
Proof. unfold Mutagen.save. quiet_prim. Qed.

#[global] Hint Resolve quiet_move quiet_read quiet_save : io.

Lemma quiet_MP3 p : quiet (Mutagen.MP3 p).
Proof.
  unfold Mutagen.MP3. apply quiet_bind; [auto with io|].
  intros f. destruct (synced f); auto with io.
Qed.

Lemma quiet_add_tags t : quiet (Mutagen.add_tags t).
Proof. destruct t; simpl; auto with io. Qed.

Lemma quiet_EasyID3 p : quiet (Mutagen.EasyID3 p).
Proof.
  unfold Mutagen.EasyID3. apply quiet_bind; [auto with io|].
  intros f. destruct (tags f); auto with io.
Qed.

Lemma quiet_getitem_artist t : quiet (Mutagen.getitem_artist t).
Proof. unfold Mutagen.getitem_artist. destruct (artist t); auto with io. Qed.

#[global] Hint Resolve quiet_MP3 quiet_add_tags quiet_EasyID3
  quiet_getitem_artist : io.


Lemma advances_inc : advances ProgressBar.inc_and_print.
Proof. intros s. simpl. done. Qed.

Lemma advances_bind_quiet {A B} (m : M A) (f : A → M B) :
  quiet m → (∀ a, advances (f a)) → advances (m ≫= f).
Proof.
  intros Hm Hf s. specialize (Hm s). unfold mbind, M_bind.
  destruct (m s) as [a s1|e s1]; simpl in *; [|done].
  specialize (Hf a s1). destruct Hm as (Ho & Hc & Ht).
  destruct (f a s1) as [b s2|e s2].
  - by rewrite <- Ho, <- Hc, <- Ht.
  - eapply same_io_trans; [|done]. done.
Qed.

Lemma advances_bind_ret {A B} (m : M A) (f : A → B) :
  advances m → advances (m ≫= λ a, mret (f a)).
Proof.
  intros Hm s. specialize (Hm s). unfold mbind, M_bind.
  by destruct (m s) as [a s1|e s1].
Qed.

Lemma item_run_intro {A} (m : M A) file :
  advances m → item_run (write (Item file);; m) file.
Proof.
  intros Hm s. unfold mbind, M_bind, write, modify. simpl.
  specialize (Hm (emit (Item file) s)). simpl in Hm.
  destruct (m (emit (Item file) s)) as [a s1|e s1]; simpl in *.
  - destruct Hm as (-> & ? & ?). by rewrite <- app_assoc.
  - destruct Hm as (-> & ? & ?). done.
Qed.

Lemma artwork_try_quiet ds file tmp results : quiet (artwork_try ds file tmp results).
Proof.
  unfold artwork_try, artwork_fetch, artwork_embed.
  apply quiet_bind.
  - apply quiet_try_except; repeat (apply quiet_bind; [auto with io|intros]);
      try case_match; auto with io.
  - intros [type_ content]. apply quiet_bind; [destruct tmp; auto with io|].
    auto with io.
Qed.

Lemma artwork_artist_quiet cfg t : quiet (artwork_artist cfg t).
Proof. unfold artwork_artist. auto 10 with io. Qed.

Lemma artwork_item_run cfg ds file : item_run (artwork_item cfg ds file) file.
Proof.
  unfold artwork_item. apply item_run_intro.
  apply advances_bind_quiet; [auto with io|intros].
  apply advances_bind_quiet; [auto with io|intros].
  apply advances_bind_quiet; [auto with io|intros].
  apply advances_bind_quiet; [apply artwork_artist_quiet|intros].
  apply advances_bind_quiet; [|intros; apply advances_inc].
  apply quiet_try_except; [apply artwork_try_quiet|auto with io].
Qed.

Lemma list_remove_length x l l' :
  list_remove x l = Some l' → length l = S (length l').
Proof.
  revert l'. induction l as [|y l IH]; intros l'; simpl; [done|].
  destruct (decide (x = y)); [by intros [= ->]|].
  destruct (list_remove x l) as [l0|]; simpl; [|done].
  intros [= <-]. simpl. by rewrite (IH l0).
Qed.

Lemma id3_item_run cfg source files file :
  item_run (id3_item cfg source files file) file.
Proof.
  unfold id3_item. apply item_run_intro. destruct (Path.split file) as [head basename].
  apply advances_bind_quiet; [auto with io|intros].
  apply advances_bind_quiet.
  - case_match.
    + apply quiet_bind; [auto with io|intros]. case_match; auto with io.
    + auto 10 with io.
  - intros fl. apply (advances_bind_ret _ (λ _, fl)). apply advances_inc.
Qed.


(** ** The loops *)

Lemma for_each_run (body : str → M unit) files :
  (∀ f, item_run (body f) f) → ∀ s,
  ∃ done rest, files = done ++ rest ∧
    pg_total (final (for_each body files s)) = pg_total s ∧
    pg_count (final (for_each body files s)) = pg_count s + length done ∧
    match for_each body files s with
    | Ok _ s' =>
        rest = [] ∧ out s' = out s ++ rounds (pg_total s) (S (pg_count s)) done
    | Raise _ s' =>
        ∃ f rest', rest = f :: rest'
          ∧ out s' = out s ++ rounds (pg_total s) (S (pg_count s)) done ++ [Item f]
    end.
Proof.
  intros Hbody. induction files as [|f files IH]; intros s.
  - exists [], []. simpl. rewrite app_nil_r. repeat split; lia.
  - simpl. unfold mbind, M_bind. specialize (Hbody f s).
    destruct (body f s) as [[] s1|e s1].
    + destruct Hbody as (Ho & Hc & Ht).
      destruct (IH s1) as (done & rest & -> & Ht' & Hc' & Hr).
      exists (f :: done), rest. split; [done|]. rewrite Ht', Hc', Ht, Hc.
      split; [done|]. split; [simpl; lia|].
      destruct (for_each body (done ++ rest) s1) as [[] s2|e s2].
      * destruct Hr as (-> & ->). split; [done|].
        rewrite Ho, Ht, Hc. simpl. by rewrite <- app_assoc.
      * destruct Hr as (f' & rest' & -> & ->). exists f', rest'. split; [done|].
        rewrite Ho, Ht, Hc. simpl. by rewrite <- app_assoc.
    + destruct Hbody as (Ho & Hc & Ht). exists [], (f :: files). simpl.
      repeat split; [done|lia|]. by exists f, files.
Qed.

Lemma id3_item_length cfg source files file s files' s' :
  id3_item cfg source files file s = Ok files' s' →
  length files' ≤ length files.
Proof.
  unfold id3_item, mbind, M_bind, write, modify, mret, M_ret, raise, lift_index.
  destruct (Path.split file) as [head basename]. simpl.
  intros H. repeat (case_match; simplify_eq/=); try done.
  match goal with H : list_remove _ _ = Some _ |- _ =>
    apply list_remove_length in H; lia end.
Qed.

Lemma id3_loop_run cfg source fuel : ∀ files i s,
  length files ≤ fuel + i →
  ∃ r done, id3_loop cfg source fuel files i s = Some r ∧
    length done ≤ length files - i ∧
    pg_total (final r) = pg_total s ∧
    pg_count (final r) = pg_count s + length done ∧
    match r with
    | Ok files' s' =>
        length files' ≤ length files
        ∧ out s' = out s ++ rounds (pg_total s) (S (pg_count s)) done
    | Raise _ s' =>
        ∃ f, out s' = out s ++ rounds (pg_total s) (S (pg_count s)) done ++ [Item f]
    end.
Proof.
  induction fuel as [|fuel IH]; intros files i s Hfuel.
  - simpl. destruct (files !! i) as [file|] eqn:Hi.
    { apply lookup_lt_Some in Hi. lia. }
    exists (Ok files s), []. simpl. rewrite app_nil_r. repeat split; lia.
  - simpl. destruct (files !! i) as [file|] eqn:Hi.
    2:{ exists (Ok files s), []. simpl. rewrite app_nil_r. repeat split; lia. }
    apply lookup_lt_Some in Hi.
    pose proof (id3_item_run cfg source files file s) as Hrun.
    destruct (id3_item cfg source files file s) as [files' s1|e s1] eqn:Hitem.
    + destruct Hrun as (Ho & Hc & Ht).
      apply id3_item_length in Hitem.
      destruct (IH files' (S i) s1) as (r & done & Hr & Hlen & Ht' & Hc' & Hshape);
        [lia|].
      exists r, (file :: done). split; [done|]. simpl.
      split; [lia|]. split; [congruence|]. split; [lia|].
      destruct r as [fl s2|e s2]; simpl in *.
      * destruct Hshape as (? & ->). split; [lia|].
        rewrite Ho, Ht, Hc. simpl. by rewrite <- app_assoc.
      * destruct Hshape as (f & ->). exists f.
        rewrite Ho, Ht, Hc. simpl. by rewrite <- app_assoc.
    + destruct Hrun as (Ho & Hc & Ht). exists (Raise e s1), []. simpl.
      repeat split; [lia|done|lia|]. by exists file.
Qed.


Lemma progress_app l1 l2 : progress (l1 ++ l2) = progress l1 ++ progress l2.
Proof. unfold progress. apply omap_app. Qed.

Lemma progress_rounds total done : ∀ k,
  progress (rounds total k done) = (λ j, (j, total)) <$> seq k (length done).
Proof.
  induction done as [|f done IH]; intros k; simpl; [done|].
  by rewrite IH.
Qed.

Lemma visited_app l1 l2 : visited (l1 ++ l2) = visited l1 ++ visited l2.
Proof. unfold visited. apply omap_app. Qed.

Lemma visited_rounds total done : ∀ k, visited (rounds total k done) = done.
Proof.
  induction done as [|f done IH]; intros k; simpl; [done|].
  by rewrite IH.
Qed.

(** The run of [get_artwork]: the bar at 0, one round per completed item,
    then either the closing lines or the item whose error escaped. *)
Lemma get_artwork_run cfg ds files s :
  ∃ done rest, files = done ++ rest ∧
    match get_artwork cfg ds files s with
    | Ok fl s' =>
        rest = [] ∧ fl = files ∧
        out s' = out s ++ Progress 0 (length files)
                   :: rounds (length files) 1 done
                   ++ [Log ProcessComplete; Log (Completed (length files))]
    | Raise _ s' =>
        ∃ f rest', rest = f :: rest' ∧
          out s' = out s ++ Progress 0 (length files)
                     :: rounds (length files) 1 done ++ [Item f]
    end.
Proof.
  unfold get_artwork, ProgressBar.new, ProgressBar.print, write, modify, get.
  unfold mbind at 1 2 3 4, M_bind. simpl.
  set (s0 := emit _ _).
  destruct (for_each_run (artwork_item cfg ds) files (artwork_item_run cfg ds) s0)
    as (done & rest & Hfiles & _ & _ & Hrun).
  exists done, rest. split; [done|].
  unfold mbind, M_bind. 
  destruct (for_each (artwork_item cfg ds) files s0) as [[] s1|e s1]; simpl.
  - destruct Hrun as (-> & ->). repeat split.
    subst s0. simpl. rewrite <- !app_assoc. done.
  - destruct Hrun as (f & rest' & -> & ->). exists f, rest'. split; [done|].
    subst s0. simpl. rewrite <- !app_assoc. done.
Qed.

(** The run of [id3_correct]. *)
Lemma id3_correct_run cfg source files s :
  ∃ r done pre, id3_correct cfg source files s = Some r ∧
    length done ≤ length files ∧
    (pre = [] ∨ pre = [Log InvalidDirExists]) ∧
    match r with
    | Ok fl s' =>
        length fl ≤ length files ∧
        out s' = out s ++ pre ++ Progress 0 (length files)
                   :: rounds (length files) 1 done
                   ++ [Log ProcessComplete; Log (Completed (length fl))]
    | Raise _ s' =>
        ∃ f, out s' = out s ++ pre ++ Progress 0 (length files)
                        :: rounds (length files) 1 done ++ [Item f]
    end.
Proof.
  unfold id3_correct.
  assert (∃ s1 pre, id3_prelude source files s = Ok () s1
                    ∧ (pre = [] ∨ pre = [Log InvalidDirExists])
                    ∧ out s1 = out s ++ pre ++ [Progress 0 (length files)]
                    ∧ pg_count s1 = 0 ∧ pg_total s1 = length files)
    as (s1 & pre & -> & Hpre & Ho & Hc & Ht).
  { unfold id3_prelude, try_except, mbind, M_bind, ProgressBar.new,
      ProgressBar.print, write, modify, get.
    pose proof (quiet_mkdir (Path.join source "_invalid") s) as Hq.
    destruct (Os.mkdir (Path.join source "_invalid") s) as [[] s1|e s1];
      simpl in *; destruct Hq as (Hq & _ & _).
    - eexists _, []. split; [done|]. split; [by left|]. simpl. by rewrite Hq.
    - eexists _, [Log InvalidDirExists]. split; [done|]. split; [by right|].
      simpl. rewrite Hq, <- !app_assoc. done. }
  destruct (id3_loop_run cfg source (length files) files 0 s1)
    as (r & done & -> & Hlen & _ & _ & Hshape); [lia|].
  rewrite Ho, Hc, Ht in Hshape.
  destruct r as [fl s2|e s2].
  - destruct Hshape as (Hfl & Hout). eexists _, done, pre.
    split; [done|]. split; [lia|]. split; [done|]. simpl. split; [done|].
    rewrite Hout, <- !app_assoc. done.
  - destruct Hshape as (f & Hout). eexists _, done, pre.
    split; [done|]. split; [lia|]. split; [done|]. exists f. simpl.
    rewrite Hout, <- !app_assoc. done.
Qed.

(** ** The progress counter *)

(** C4, as the code has it. For every batch and every state of the
    filesystem, [get_artwork] and [id3_correct] show the bar at 0 of M,
    then after each item whose turn runs to its end (whatever became of its
    artwork) show the bar exactly once, one higher than before: after the
    N-th such item the bar shows N of M, and N never exceeds M. An item
    whose error escapes is bound and ends the run with no further update. *)
Theorem progress_counts_completed_items cfg ds source files s :
  (∃ done rest, files = done ++ rest ∧ length done ≤ length files ∧
     let r := get_artwork cfg ds files s in
     progress (out (final r))
     = progress (out s) ++ ((λ j, (j, length files)) <$> seq 0 (S (length done)))
     ∧ match r with
       | Ok _ s' =>
           rest = [] ∧
           out s' = out s ++ Progress 0 (length files)
                      :: rounds (length files) 1 done
                      ++ [Log ProcessComplete; Log (Completed (length files))]
       | Raise _ s' =>
           ∃ f rest', rest = f :: rest' ∧
             out s' = out s ++ Progress 0 (length files)
                        :: rounds (length files) 1 done ++ [Item f]
       end)
  ∧ (∃ r done pre, id3_correct cfg source files s = Some r ∧
       length done ≤ length files ∧
       (pre = [] ∨ pre = [Log InvalidDirExists]) ∧
       progress (out (final r))
       = progress (out s) ++ ((λ j, (j, length files)) <$> seq 0 (S (length done)))
       ∧ match r with
         | Ok fl s' =>
             out s' = out s ++ pre ++ Progress 0 (length files)
                        :: rounds (length files) 1 done
                        ++ [Log ProcessComplete; Log (Completed (length fl))]
         | Raise _ s' =>
             ∃ f, out s' = out s ++ pre ++ Progress 0 (length files)
                             :: rounds (length files) 1 done ++ [Item f]
         end).
Proof.
  split.
  - destruct (get_artwork_run cfg ds files s) as (done & rest & Hfiles & Hrun).
    exists done, rest. split; [done|].
    split; [rewrite Hfiles, length_app; lia|]. simpl.
    destruct (get_artwork cfg ds files s) as [fl s1|e s1]; simpl.
    + destruct Hrun as (-> & _ & ->). split; [|done].
      rewrite progress_app. simpl. rewrite progress_app, progress_rounds.
      simpl. by rewrite app_nil_r.
    + destruct Hrun as (f & rest' & -> & ->). split; [|by exists f, rest'].
      rewrite progress_app. simpl. rewrite progress_app, progress_rounds.
      simpl. by rewrite app_nil_r.
  - destruct (id3_correct_run cfg source files s)
      as (r & done & pre & Hr & Hlen & Hpre & Hrun).
    exists r, done, pre. split; [done|]. split; [done|]. split; [done|].
    assert (progress pre = []) as Hpp by (by destruct Hpre as [-> | ->]).
    destruct r as [fl s1|e s1]; simpl.
    + destruct Hrun as (_ & ->). split; [|done].
      rewrite !progress_app, Hpp. simpl. rewrite progress_app, progress_rounds.
      simpl. by rewrite app_nil_r.
    + destruct Hrun as (f & ->). split; [|by exists f].
      rewrite !progress_app, Hpp. simpl. rewrite progress_app, progress_rounds.
      simpl. by rewrite app_nil_r.
Qed.

(** C4 as stated fails: in a batch of two files whose first has no ID3
    header, [get_artwork] binds the first file, its turn fails, and the bar
    is never shown again: it stays at 0 of 2. *)
Lemma progress_skipped_when_item_fails :
  ∃ s', get_artwork Sample.cfg Sample.serving [Sample.one; Sample.two]
          (Sample.start Sample.headerless) = Raise ID3NoHeaderError s'
        ∧ visited (out s') = [Sample.one]
        ∧ progress (out s') = [(0, 2)].
Proof.
  eexists. split; [|split].
  - apply run_raised. vm_compute. reflexivity.
  - vm_compute. reflexivity.
  - vm_compute. reflexivity.
Qed.


(** ** Computations without effect *)

Lemma pure_ret {A} (a : A) : pure (mret a : M A).
Proof. done. Qed.

Lemma pure_raise {A} e : pure (raise e : M A).
Proof. done. Qed.

Lemma pure_bind {A B} (m : M A) (f : A → M B) :
  pure m → (∀ a, pure (f a)) → pure (m ≫= f).
Proof.
  intros Hm Hf s. specialize (Hm s). unfold mbind, M_bind.
  destruct (m s) as [a s1|e s1]; simpl in *; subst; [apply Hf|done].
Qed.

Lemma pure_try_except {A} (m h : M A) : pure m → pure h → pure (try_except m h).
Proof.
  intros Hm Hh s. specialize (Hm s). unfold try_except.
  destruct (m s) as [a s1|e s1]; simpl in *; subst; [done|apply Hh].
Qed.

Lemma pure_try_except_only {A} (m h : M A) c :
  pure m → pure h → pure (try_except_only m c h).
Proof.
  intros Hm Hh s. specialize (Hm s). unfold try_except_only.
  destruct (m s) as [a s1|e s1]; simpl in *; subst; [done|].
  destruct (c e); [apply Hh|done].
Qed.

Lemma pure_lift_sum {A} (x : exn + A) : pure (lift_sum x).
Proof. by destruct x. Qed.

Lemma pure_lift_index {A} (x : option A) : pure (lift_index x).
Proof. by destruct x. Qed.

Lemma pure_read p : pure (Mutagen.read p).
Proof. intros s. unfold Mutagen.read. by repeat case_match. Qed.

#[global] Hint Resolve pure_ret pure_raise pure_bind pure_try_except
  pure_try_except_only pure_lift_sum pure_lift_index pure_read : io.

Lemma pure_MP3 p : pure (Mutagen.MP3 p).
Proof.
  unfold Mutagen.MP3. apply pure_bind; [auto with io|].
  intros f. destruct (synced f); auto with io.
Qed.

Lemma pure_add_tags t : pure (Mutagen.add_tags t).
Proof. destruct t; simpl; auto with io. Qed.

Lemma pure_EasyID3 p : pure (Mutagen.EasyID3 p).
Proof.
  unfold Mutagen.EasyID3. apply pure_bind; [auto with io|].
  intros f. destruct (tags f); auto with io.
Qed.

Lemma pure_getitem_artist t : pure (Mutagen.getitem_artist t).
Proof. unfold Mutagen.getitem_artist. destruct (artist t); auto with io. Qed.

#[global] Hint Resolve pure_MP3 pure_add_tags pure_EasyID3
  pure_getitem_artist : io.

Lemma pure_artwork_artist cfg t : pure (artwork_artist cfg t).
Proof. unfold artwork_artist. auto 10 with io. Qed.

Lemma pure_artwork_fetch ds results i : pure (artwork_fetch ds results i).
Proof.
  unfold artwork_fetch. repeat (apply pure_bind; [auto with io|intros]).
  case_match. auto with io.
Qed.

Lemma pure_artwork_embed tmp ty c : pure (artwork_embed tmp ty c).
Proof. destruct tmp; simpl; auto with io. Qed.

#[global] Hint Resolve pure_artwork_artist pure_artwork_fetch
  pure_artwork_embed : io.

(** What a fetch that returns has in hand: the bytes the provider served
    for some image address. *)
Lemma artwork_fetch_Ok ds results i s ty c s' :
  artwork_fetch ds results i s = Ok (ty, c) s' →
  ∃ uri status, fetch ds uri = inr (c, status).
Proof.
  unfold artwork_fetch, mbind, M_bind, lift_sum, lift_index, mret, M_ret, raise.
  intros H. repeat (case_match; simplify_eq/=). eauto.
Qed.

(** ** The primary artist *)

(** C6. [get_artwork], [file_copy] and [file_move] derive the artist in
    the same way: the tag's first artist string is cut at the leftmost
    match of the "and" pattern and trimmed, the result is cut at the
    leftmost match of the "feature" pattern and trimmed. With the feature
    pattern [feat\.], and an "and" pattern that does not occur in it, the
    tag ["Artist A feat. Artist B"] gives ["Artist A"]. *)
Theorem primary_artist_derivation cfg a l (t : id3) s :
  artist t = a :: l →
  (artwork_artist cfg t s = Ok (Spec.primary_artist cfg a) s
   ∧ copy_artist cfg t s = Ok (Spec.primary_artist cfg a) s
   ∧ move_artist cfg t s = Ok (Spec.primary_artist cfg a) s)
  ∧ (feature_tags cfg = Re.Lit "feat." →
     Re.search (and_tags cfg) "Artist A feat. Artist B" = false →
     Spec.primary_artist cfg "Artist A feat. Artist B" = "Artist A").
Proof.
  intros Ha. split.
  - unfold artwork_artist, copy_artist, move_artist, Mutagen.getitem_artist,
      Spec.primary_artist, mbind, M_bind. rewrite Ha. simpl.
    by rewrite !first_piece_split.
  - intros Hfeat Hand. unfold Spec.primary_artist.
    rewrite (first_segment_no_match _ _ Hand), Hfeat. reflexivity.
Qed.

Lemma primary_artist_derivation_witness :
  (artwork_artist Sample.cfg (Id3 [lit "Artist A & Artist B"] [] [])
      (Sample.start Sample.library)
   = Ok (lit "Artist A") (Sample.start Sample.library)
   ∧ copy_artist Sample.cfg (Id3 [lit "Artist A & Artist B"] [] [])
       (Sample.start Sample.library)
     = Ok (lit "Artist A") (Sample.start Sample.library)
   ∧ move_artist Sample.cfg (Id3 [lit "Artist A & Artist B"] [] [])
       (Sample.start Sample.library)
     = Ok (lit "Artist A") (Sample.start Sample.library))
  ∧ Spec.primary_artist
      (Settings (and_tags Sample.cfg) (Re.Lit "feat.")
                (feature2_tags Sample.cfg) (invalid_tags Sample.cfg))
      "Artist A feat. Artist B" = "Artist A".
Proof.
  split.
  - exact (proj1 (primary_artist_derivation Sample.cfg "Artist A & Artist B" []
                    (Id3 [lit "Artist A & Artist B"] [] [])
                    (Sample.start Sample.library) eq_refl)).
  - apply (proj2 (primary_artist_derivation
                    (Settings (and_tags Sample.cfg) (Re.Lit "feat.")
                       (feature2_tags Sample.cfg) (invalid_tags Sample.cfg))
                    "x" [] (Id3 [lit "x"] [] [])
                    (Sample.start Sample.library) eq_refl));
      reflexivity.
Defined.


(** ** Copy and move *)

Lemma copy_item_transfer cfg destination file s :
  copy_item cfg destination file s
  = Transfer.item cfg destination Shutil.copy2 file s.
Proof.
  unfold copy_item, Transfer.item, Transfer.destination_path, copy_artist,
    Spec.primary_artist, mbind, M_bind, write, modify. simpl.
  destruct (Mutagen.EasyID3 file _) as [t s1|e s1]; [|done].
  destruct (Mutagen.getitem_artist t s1) as [l s2|e s2]; [|done].
  destruct (lift_index (Py.index l 0) s2) as [a s3|e s3]; [|done].
  simpl. by rewrite !first_piece_split.
Qed.

Lemma move_item_transfer cfg destination file s :
  move_item cfg destination file s
  = Transfer.item cfg destination Shutil.move file s.
Proof.
  unfold move_item, Transfer.item, Transfer.destination_path, move_artist,
    Spec.primary_artist, mbind, M_bind, write, modify. simpl.
  destruct (Mutagen.EasyID3 file _) as [t s1|e s1]; [|done].
  destruct (Mutagen.getitem_artist t s1) as [l s2|e s2]; [|done].
  destruct (lift_index (Py.index l 0) s2) as [a s3|e s3]; [|done].
  simpl. by rewrite !first_piece_split.
Qed.

(** Whether a turn raises does not depend on the final action. *)
Lemma transfer_raised cfg destination action action' file s :
  raised (Transfer.item cfg destination action file s)
  = raised (Transfer.item cfg destination action' file s).
Proof.
  unfold Transfer.item, mbind, M_bind, write, modify, try_except. simpl.
  destruct (Mutagen.EasyID3 file _) as [t s1|e s1]; [|done].
  destruct (Mutagen.getitem_artist t s1) as [l s2|e s2]; [|done].
  destruct (lift_index (Py.index l 0) s2) as [a s3|e s3]; [|done].
  destruct (try_except_only _ _ _ s3) as [[] s4|e s4]; [|done].
  destruct (action _ _ s4); destruct (action' _ _ s4); done.
Qed.

Lemma for_each_returned {A} (body : A → M unit) files s :
  match for_each body files s with Ok a _ => a = () | Raise _ _ => True end.
Proof. by destruct (for_each body files s) as [[] ?|]. Qed.

(** ** Paths *)

Lemma split_chr_nonempty ch s : Py.split_chr ch s ≠ [].
Proof.
  induction s as [|c s IH]; simpl; [done|].
  destruct (decide (c = ch)); [done|]. by destruct (Py.split_chr ch s).
Qed.

Lemma split_chr_app ch a b :
  Py.split_chr ch (a ++ ch :: b) = Py.split_chr ch a ++ Py.split_chr ch b.
Proof.
  induction a as [|c a IH]; simpl.
  - by rewrite decide_True.
  - destruct (decide (c = ch)); [by rewrite IH|].
    rewrite IH. pose proof (split_chr_nonempty ch a).
    by destruct (Py.split_chr ch a).
Qed.

Lemma split_chr_absent ch b : ch ∉ b → Py.split_chr ch b = [b].
Proof.
  induction b as [|c b IH]; simpl; [done|].
  intros [Hc Hb]%not_elem_of_cons. rewrite decide_False by done.
  by rewrite IH.
Qed.

Lemma components_app a b :
  Path.components (a ++ Path.sep :: b) = Path.components a ++ Path.components b.
Proof. unfold Path.components. by rewrite split_chr_app, filter_app. Qed.

Lemma components_absent b :
  b ≠ [] → Path.sep ∉ b → Path.components b = [b].
Proof.
  intros Hb Hs. unfold Path.components. rewrite split_chr_absent by done.
  by rewrite filter_cons_True.
Qed.

Lemma components_nil : Path.components [] = [].
Proof. done. Qed.

Lemma components_tail b :
  Path.sep ∉ b → Path.components b = if decide (b = []) then [] else [b].
Proof.
  intros Hs. destruct (decide (b = [])) as [->|Hb]; [done|].
  by apply components_absent.
Qed.

Lemma components_seps n b :
  Path.components (replicate n Path.sep ++ b) = Path.components b.
Proof.
  induction n as [|n IH]; [done|].
  change (replicate (S n) Path.sep ++ b) with ([] ++ Path.sep :: (replicate n Path.sep ++ b)).
  by rewrite components_app, IH.
Qed.

Lemma endswith_chr_inv ch a :
  Py.endswith_chr ch a = true → ∃ a', a = a' ++ [ch].
Proof.
  unfold Py.endswith_chr. destruct (rev a) as [|c r] eqn:Hr; simpl; [done|].
  intros ->%bool_decide_eq_true. exists (rev r).
  by rewrite <- (rev_involutive a), Hr.
Qed.

Lemma endswith_chr_snoc ch a : Py.endswith_chr ch (a ++ [ch]) = true.
Proof.
  unfold Py.endswith_chr. rewrite rev_app_distr. simpl. by apply bool_decide_eq_true.
Qed.

Lemma startswith_chr_app ch a b :
  a ≠ [] → Py.startswith_chr ch (a ++ b) = Py.startswith_chr ch a.
Proof. by destruct a. Qed.

Lemma startswith_chr_absent ch b : ch ∉ b → Py.startswith_chr ch b = false.
Proof.
  destruct b as [|c b]; simpl; [done|].
  intros [Hc _]%not_elem_of_cons. by apply bool_decide_eq_false.
Qed.

(** [os.path.join(a, b)] for a name [b] without separator. *)
Lemma join_name a b :
  Path.sep ∉ b →
  Path.join a b = if bool_decide (a = []) || Py.endswith_chr Path.sep a
                  then a ++ b else a ++ Path.sep :: b.
Proof. intros Hb. unfold Path.join. by rewrite startswith_chr_absent. Qed.

Lemma key_join a b :
  Path.sep ∉ b →
  Path.key (Path.join a b) = Path.key a ++ Path.components b.
Proof.
  intros Hs. rewrite join_name by done. unfold Path.key.
  destruct (decide (a = [])) as [->|Ha].
  - simpl. by rewrite startswith_chr_absent.
  - rewrite bool_decide_false by done. simpl.
    destruct (Py.endswith_chr Path.sep a) eqn:He.
    + apply endswith_chr_inv in He as [a' ->].
      rewrite startswith_chr_app by done.
      rewrite <- !app_assoc. simpl. rewrite !components_app.
      by rewrite components_nil, app_nil_r, app_assoc.
    + rewrite startswith_chr_app by done.
      by rewrite components_app, app_assoc.
Qed.

Lemma key_join_name a b :
  b ≠ [] → Path.sep ∉ b → Path.key (Path.join a b) = Path.key a ++ [b].
Proof. intros Hb Hs. by rewrite key_join, components_absent. Qed.

Lemma parent_snoc k b : Path.parent (k ++ [b]) = k.
Proof. unfold Path.parent. apply removelast_last. Qed.

Lemma join_nonempty a b : b ≠ [] → Path.join a b ≠ [].
Proof.
  intros Hb. unfold Path.join.
  destruct (Py.startswith_chr Path.sep b); [done|].
  destruct (_ || _); intros H%app_eq_nil; [by destruct H|by destruct H].
Qed.

(** [s.rfind(ch) + 1] cuts [s] after the last [ch]. *)
Lemma rfind1_spec ch s :
  (ch ∉ drop (Py.rfind1 ch s) s)
  ∧ Py.rfind1 ch s ≤ length s
  ∧ (Py.rfind1 ch s = 0 ∨ ∃ h, take (Py.rfind1 ch s) s = h ++ [ch]).
Proof.
  induction s as [|c s (IH1 & IH2 & IH3)]; simpl.
  - split; [apply not_elem_of_nil|]. split; [lia|by left].
  - destruct (Py.rfind1 ch s) as [|k] eqn:Hk.
    + destruct (decide (c = ch)) as [->|Hc]; simpl.
      * split; [by rewrite drop_0 in IH1|]. split; [lia|].
        right. exists []. by rewrite take_0.
      * split; [rewrite drop_0 in IH1; by apply not_elem_of_cons|].
        split; [lia|by left].
    + simpl. split; [done|]. split; [lia|]. right.
      destruct IH3 as [|[h Hh]]; [done|]. exists (c :: h). simpl. by rewrite Hh.
Qed.

Lemma basename_no_sep p : Path.sep ∉ Path.basename p.
Proof. apply rfind1_spec. Qed.

Lemma lstrip_chr_spec ch s :
  ∃ n, s = replicate n ch ++ Py.lstrip_chr ch s.
Proof.
  induction s as [|c s [n IH]]; simpl; [by exists 0|].
  destruct (decide (c = ch)) as [->|]; [|by exists 0].
  exists (S n). simpl. by rewrite <- IH.
Qed.

Lemma rstrip_chr_spec ch s :
  ∃ n, s = Py.rstrip_chr ch s ++ replicate n ch.
Proof.
  unfold Py.rstrip_chr. destruct (lstrip_chr_spec ch (rev s)) as [n Hn].
  exists n. rewrite <- (rev_involutive s) at 1. rewrite Hn at 1.
  rewrite rev_app_distr. f_equal.
  clear. induction n as [|n IH]; [done|]. simpl. rewrite IH.
  change (ch :: replicate n ch) with (replicate (S n) ch).
  by rewrite replicate_S_end.
Qed.

Lemma key_app_sep a b :
  Path.key ((a ++ [Path.sep]) ++ b)
  = Path.key (a ++ [Path.sep]) ++ Path.components b.
Proof.
  unfold Path.key.
  rewrite (startswith_chr_app Path.sep (a ++ [Path.sep]) b) by (by destruct a).
  rewrite <- !app_assoc. simpl. rewrite !components_app.
  by rewrite components_nil, app_nil_r.
Qed.

Lemma key_app_seps r n b :
  r ≠ [] →
  Path.key ((r ++ replicate (S n) Path.sep) ++ b)
  = Path.key r ++ Path.components b.
Proof.
  intros Hr. unfold Path.key. rewrite <- !app_assoc.
  rewrite (startswith_chr_app Path.sep r) by done.
  simpl. by rewrite components_app, components_seps.
Qed.

Lemma key_join_head hd tl :
  Path.sep ∉ tl →
  hd = [] ∨ (∃ h, hd = h ++ [Path.sep]) →
  Path.key (Path.join
              (if bool_decide (hd ≠ [])
                  && negb (bool_decide (hd = replicate (length hd) Path.sep))
               then Py.rstrip_chr Path.sep hd else hd) tl)
  = Path.key (hd ++ tl).
Proof.
  intros Htail Hhead. rewrite key_join by done.
  destruct Hhead as [->|[h ->]].
  - simpl. unfold Path.key. by rewrite startswith_chr_absent.
  - rewrite bool_decide_true by (by destruct h). simpl.
    destruct (bool_decide (h ++ [Path.sep] = _)) eqn:Hall; simpl.
    + by rewrite key_app_sep.
    + apply bool_decide_eq_false in Hall.
      destruct (rstrip_chr_spec Path.sep (h ++ [Path.sep])) as [n Hn].
      set (r := Py.rstrip_chr Path.sep (h ++ [Path.sep])) in *.
      assert (r ≠ []) as Hr.
      { intros Hr. rewrite Hr in Hn. simpl in Hn. apply Hall.
        rewrite Hn at 1. by rewrite Hn, length_replicate. }
      destruct n as [|n].
      * rewrite app_nil_r in Hn. rewrite <- Hn. by rewrite key_app_sep.
      * rewrite Hn. by rewrite key_app_seps.
Qed.

(** Splitting a path and joining the two parts again names the same
    object. *)
Lemma key_join_split p :
  Path.key (Path.join (Path.split p).1 (Path.split p).2) = Path.key p.
Proof.
  unfold Path.split. simpl.
  destruct (rfind1_spec Path.sep p) as (Htail & Hle & Hhead).
  rewrite key_join_head; [by rewrite take_drop|done|].
  destruct Hhead as [->|?]; [left; by rewrite take_0|by right].
Qed.


(** ** What the collaborators do on a file that is there *)

Lemma lookup_nonempty p s n : Os.lookup p s = Some n → p ≠ [].
Proof. unfold Os.lookup. by destruct (bool_decide_reflect (p = [])). Qed.

Lemma lookup_key p s n : Os.lookup p s = Some n → fs s !! Path.key p = Some n.
Proof. unfold Os.lookup. by destruct (bool_decide (p = [])). Qed.

Lemma lookup_same_key p q s :
  p ≠ [] → q ≠ [] → Path.key p = Path.key q → Os.lookup p s = Os.lookup q s.
Proof.
  intros Hp Hq Hk. unfold Os.lookup.
  by rewrite !bool_decide_false, Hk by done.
Qed.

Lemma lookup_emit p e s : Os.lookup p (emit e s) = Os.lookup p s.
Proof. done. Qed.

(** Renaming a path to another name of the same object changes nothing. *)
Lemma rename_same src dst s n :
  Os.lookup src s = Some n → dst ≠ [] → Path.key src = Path.key dst →
  Os.rename src dst s = Ok () s.
Proof.
  intros Hl Hd Hk. unfold Os.rename.
  rewrite (bool_decide_false _ (lookup_nonempty _ _ _ Hl)).
  rewrite (bool_decide_false _ Hd). simpl.
  rewrite (lookup_key _ _ _ Hl). by rewrite bool_decide_true.
Qed.

Lemma EasyID3_file file s f t :
  Os.lookup file s = Some (File f) → tags f = Some t →
  Mutagen.EasyID3 file s = Ok t s.
Proof.
  intros Hl Ht. unfold Mutagen.EasyID3, Mutagen.read, mbind, M_bind.
  by rewrite Hl, Ht.
Qed.

Lemma save_file file t s f :
  Os.lookup file s = Some (File f) → readonly f = false →
  Mutagen.save file t s
  = Ok () (with_fs (<[Path.key file :=
                        File (set_tags (Mutagen.written t) f)]> (fs s)) s).
Proof. intros Hl Hr. unfold Mutagen.save. by rewrite Hl, Hr. Qed.

(** ** One turn of [id3_correct] *)

(** C7. A file named ["Artist A - Song One.mp3"], whose name the
    normalisation of the feature tags leaves as it is and in which the
    invalid pattern does not occur, that can be opened, has an ID3 header
    and is not write-protected: its turn returns with the list unchanged,
    the file where it was, its artist set to ["Artist A"], its title to
    ["Song One"] and its pictures kept; the bar has advanced once. *)
Theorem retag_sets_artist_and_title cfg source files file f t s :
  Path.basename file = "Artist A - Song One.mp3" →
  Re.sub (feature2_tags cfg) "(ft. "
    (Re.sub (feature_tags cfg) " ft. " "Artist A - Song One.mp3")
  = "Artist A - Song One.mp3" →
  Re.search (invalid_tags cfg) "Artist A - Song One.mp3" = false →
  Os.lookup file s = Some (File f) →
  tags f = Some t →
  readonly f = false →
  ∃ s', id3_item cfg source files file s = Ok files s'
        ∧ fs s' = <[Path.key file :=
                      File (set_tags (Id3 [lit "Artist A"] [lit "Song One"]
                                          (apic t)) f)]> (fs s)
        ∧ out s' = out s ++ [Item file; Progress (S (pg_count s)) (pg_total s)].
Proof.
  intros Hname Hnorm Hvalid Hl Ht Hro.
  pose proof (key_join_split file) as Hkey.
  unfold id3_item.
  destruct (Path.split file) as [head b] eqn:Hsp.
  assert (b = Path.basename file) as -> by (by injection Hsp as _ <-).
  simpl in Hkey. rewrite Hname in *. rewrite Hnorm.
  set (name := lit "Artist A - Song One.mp3") in *.
  set (tmp := Path.join head name) in *.
  assert (tmp ≠ []) as Htmp by (by apply join_nonempty).
  assert (Os.lookup tmp (emit (Item file) s) = Some (File f)) as Hl'.
  { rewrite lookup_emit, <- Hl. apply lookup_same_key; [done| |done].
    by eapply lookup_nonempty. }
  unfold mbind at 1, M_bind at 1, write, modify.
  unfold mbind at 1, M_bind at 1.
  rewrite (rename_same file tmp _ (File f)); [|done|done|done].
  rewrite Hvalid.
  replace (Re.split (Re.Lit " - ") name)
    with [lit "Artist A"; lit "Song One.mp3"] by (vm_compute; reflexivity).
  cbn [orb length Nat.eqb negb].
  unfold mbind at 1, M_bind at 1. unfold mbind at 1, M_bind at 1.
  rewrite (EasyID3_file _ _ _ _ Hl' Ht).
  cbn [Py.index lookup list_lookup lift_index].
  unfold mbind at 1, M_bind at 1. cbn [mret M_ret].
  unfold mbind at 1, M_bind at 1. unfold mbind at 1, M_bind at 1.
  cbn [mret M_ret].
  rewrite (save_file _ _ _ _ Hl' Hro).
  replace (Py.strip (lit "Artist A")) with (lit "Artist A")
    by (vm_compute; reflexivity).
  replace (Py.strip (Py.drop_last4 (lit "Song One.mp3"))) with (lit "Song One")
    by (vm_compute; reflexivity).
  eexists. split; [reflexivity|]. split.
  - simpl. by rewrite Hkey.
  - simpl. by rewrite <- app_assoc.
Qed.

Lemma retag_sets_artist_and_title_witness :
  ∃ s', id3_item Sample.cfg "/music" [Sample.one; Sample.two] Sample.one
          (Sample.start Sample.library) = Ok [Sample.one; Sample.two] s'
        ∧ fs s' = <[Path.key Sample.one :=
                      File (set_tags (Id3 [lit "Artist A"] [lit "Song One"] [])
                              (Sample.song "Artist A feat. Artist B"
                                           "Song One"))]> Sample.library
        ∧ out s' = [Item Sample.one; Progress 1 0].
Proof.
  apply (retag_sets_artist_and_title Sample.cfg "/music"
           [Sample.one; Sample.two] Sample.one
           (Sample.song "Artist A feat. Artist B" "Song One")
           (Id3 [lit "Artist A feat. Artist B"] [lit "Song One"] [])
           (Sample.start Sample.library));
    vm_compute; reflexivity.
Defined.


Lemma isdir_key p s : Os.isdir p s = true → fs s !! Path.key p = Some Dir ∧ p ≠ [].
Proof.
  unfold Os.isdir. destruct (Os.lookup p s) as [[|f]|] eqn:Hl; [|done..].
  intros _. split; [by apply lookup_key|by eapply lookup_nonempty].
Qed.

Lemma parent_check_dir k b s :
  fs s !! k = Some Dir → Os.parent_check (k ++ [b]) s = None.
Proof. intros Hk. unfold Os.parent_check. by rewrite parent_snoc, Hk. Qed.

(** [os.rename] of a file to a name in an existing directory, where no
    directory stands. *)
Lemma rename_file src dst s f :
  Os.lookup src s = Some (File f) → dst ≠ [] →
  Os.parent_check (Path.key dst) s = None →
  fs s !! Path.key dst ≠ Some Dir →
  Os.rename src dst s
  = Ok () (if bool_decide (Path.key src = Path.key dst) then s
           else with_fs (<[Path.key dst := File f]>
                           (delete (Path.key src) (fs s))) s).
Proof.
  intros Hl Hd Hp Hn. unfold Os.rename.
  rewrite (bool_decide_false _ (lookup_nonempty _ _ _ Hl)).
  rewrite (bool_decide_false _ Hd). simpl.
  rewrite (lookup_key _ _ _ Hl).
  destruct (bool_decide (Path.key src = Path.key dst)); [done|].
  rewrite Hp. by destruct (fs s !! Path.key dst) as [[|g]|].
Qed.

Lemma list_remove_elem x l : x ∈ l → is_Some (list_remove x l).
Proof.
  induction l as [|y l IH]; simpl; [by intros ?%elem_of_nil|].
  intros [->|Hx]%elem_of_cons.
  - rewrite decide_True by done. by eexists.
  - destruct (decide (x = y)); [by eexists|].
    destruct (IH Hx) as [l' ->]. by eexists.
Qed.

(** C8. A file named ["BadFormat.mp3"], given by the path that joining
    its directory and its name yields, present in the list, where the
    [_invalid] folder of the source directory exists and holds no
    directory of that name: its turn returns, the file stands under
    [_invalid] with its name, its content and its tags as they were, the
    old name is gone, the first occurrence of the path has left the list
    and the bar has advanced once. *)
Theorem badly_named_file_is_quarantined cfg source files file head f s :
  Path.split file = (head, lit "BadFormat.mp3") →
  Path.join head "BadFormat.mp3" = file →
  Re.sub (feature2_tags cfg) "(ft. "
    (Re.sub (feature_tags cfg) " ft. " "BadFormat.mp3") = "BadFormat.mp3" →
  Os.lookup file s = Some (File f) →
  Os.isdir (Path.join source "_invalid") s = true →
  Os.isdir (Path.join3 source "_invalid" "BadFormat.mp3") s = false →
  file ∈ files →
  ∃ files' s',
    id3_item cfg source files file s = Ok files' s'
    ∧ list_remove file files = Some files'
    ∧ Path.key (Path.join3 source "_invalid" "BadFormat.mp3")
      = Path.key source ++ [lit "_invalid"; lit "BadFormat.mp3"]
    ∧ fs s' !! (Path.key source ++ [lit "_invalid"; lit "BadFormat.mp3"])
      = Some (File f)
    ∧ (Path.key file ≠ Path.key source ++ [lit "_invalid"; lit "BadFormat.mp3"] →
       fs s' !! Path.key file = None)
    ∧ out s' = out s ++ [Item file; Progress (S (pg_count s)) (pg_total s)].
Proof.
  intros Hsp Hjoin Hnorm Hl [Hinv Hinv']%isdir_key Hfree [files' Hrm]%list_remove_elem.
  set (name := lit "BadFormat.mp3") in *.
  assert (Path.sep ∉ name) as Hname by (by apply (bool_decide_unpack _)).
  assert (Path.sep ∉ lit "_invalid") as Hsub by (by apply (bool_decide_unpack _)).
  set (target := Path.join3 source "_invalid" name) in *.
  assert (Path.key target = Path.key source ++ [lit "_invalid"; name]) as Hkey.
  { unfold target, Path.join3. rewrite !key_join_name by done.
    by rewrite <- app_assoc. }
  assert (target ≠ []) as Htarget by (by apply join_nonempty).
  assert (Os.rename file target (emit (Item file) s)
          = Ok () (if bool_decide (Path.key file = Path.key target)
                   then emit (Item file) s
                   else with_fs (<[Path.key target := File f]>
                                   (delete (Path.key file) (fs s)))
                                (emit (Item file) s))) as Hmv.
  { apply (rename_file file target (emit (Item file) s) f); [exact Hl|done| |].
    - unfold target, Path.join3. rewrite (key_join_name _ name) by done.
      apply parent_check_dir. by rewrite key_join_name in * by done.
    - simpl. unfold Os.isdir, Os.lookup in Hfree.
      rewrite bool_decide_false in Hfree by done.
      intros Hd. by rewrite Hd in Hfree. }
  unfold id3_item. rewrite Hsp, Hnorm, Hjoin.
  unfold mbind at 1, M_bind at 1, write, modify.
  unfold mbind at 1, M_bind at 1.
  rewrite (rename_same file file _ (File f));
    [|exact Hl|by eapply lookup_nonempty|done].
  replace (Re.split (Re.Lit " - ") name) with [name] by (vm_compute; reflexivity).
  cbn [length Nat.eqb negb]. rewrite orb_true_r.
  unfold mbind at 1, M_bind at 1. unfold mbind at 1, M_bind at 1.
  fold target. rewrite Hmv, Hrm. cbn [mret M_ret].
  exists files'. eexists. split; [reflexivity|]. split; [done|]. split; [done|].
  rewrite <- Hkey.
  destruct (bool_decide_reflect (Path.key file = Path.key target)) as [Heq|Hne].
  - split; [|split]; simpl.
    + rewrite <- Heq. by apply lookup_key in Hl.
    + done.
    + by rewrite <- app_assoc.
  - split; [|split]; simpl.
    + by rewrite lookup_insert_eq.
    + intros _. rewrite lookup_insert_ne by done. by rewrite lookup_delete_eq.
    + by rewrite <- app_assoc.
Qed.

Lemma badly_named_file_is_quarantined_witness :
  ∃ files' s',
    id3_item Sample.cfg "/music" [Sample.bad; Sample.one] Sample.bad
      (Sample.start (<[Path.key "/music/_invalid" := Dir]> Sample.music))
    = Ok files' s'
    ∧ list_remove Sample.bad [Sample.bad; Sample.one] = Some files'
    ∧ Path.key (Path.join3 "/music" "_invalid" "BadFormat.mp3")
      = Path.key "/music" ++ [lit "_invalid"; lit "BadFormat.mp3"]
    ∧ fs s' !! (Path.key "/music" ++ [lit "_invalid"; lit "BadFormat.mp3"])
      = Some (File Sample.blank)
    ∧ (Path.key Sample.bad
       ≠ Path.key "/music" ++ [lit "_invalid"; lit "BadFormat.mp3"] →
       fs s' !! Path.key Sample.bad = None)
    ∧ out s' = [Item Sample.bad; Progress 1 0].
Proof.
  apply (badly_named_file_is_quarantined Sample.cfg "/music"
           [Sample.bad; Sample.one] Sample.bad "/music" Sample.blank
           (Sample.start (<[Path.key "/music/_invalid" := Dir]> Sample.music)));
    [vm_compute; reflexivity..|left].
Defined.


(** ** One turn of [file_copy] *)

Lemma mkdir_existing p s :
  Os.isdir p s = true → Os.mkdir p s = Raise FileExistsError s.
Proof.
  intros [Hk Hp]%isdir_key. unfold Os.mkdir.
  by rewrite bool_decide_false, Hk by done.
Qed.

(** [shutil.copy2] of a file onto a path that is free, or held by another
    file that can be written, in an existing directory. *)
Lemma copy2_file src dst s f :
  Os.lookup src s = Some (File f) → dst ≠ [] →
  Os.parent_check (Path.key dst) s = None →
  (Os.lookup dst s = None
   ∨ ∃ g, Os.lookup dst s = Some (File g) ∧ readonly g = false
          ∧ Path.key dst ≠ Path.key src) →
  Shutil.copy2 src dst s
  = Ok () (with_fs (<[Path.key dst := File f]> (fs s)) s).
Proof.
  intros Hl Hd Hp Hdst.
  assert (Os.lookup dst s = fs s !! Path.key dst) as Hk
    by (unfold Os.lookup; by rewrite bool_decide_false).
  unfold Shutil.copy2, Shutil.samefile, Os.isdir, Os.exists_.
  destruct Hdst as [Hfree|(g & Hg & Hro & Hne)].
  - rewrite Hfree, Hl. simpl. rewrite Hfree. simpl.
    rewrite bool_decide_false by done. by rewrite <- Hk, Hfree, Hp.
  - rewrite Hg, Hl. simpl. rewrite Hg. simpl.
    rewrite (bool_decide_false (Path.key src = _)) by done.
    rewrite bool_decide_false by done. by rewrite <- Hk, Hg, Hro.
Qed.

(** C9. One turn of [file_copy] on a file that can be opened and carries
    an artist, when the folder of its primary artist exists in the
    destination: [os.mkdir] fails with [FileExistsError], which is logged
    and goes no further; the turn returns, and when the target path is free
    or held by another writable file, the file stands in that folder under
    its own basename, everything else is as it was, and no error is
    logged. *)
Theorem copy_into_existing_folder cfg destination file f t a l s :
  Os.lookup file s = Some (File f) →
  tags f = Some t →
  artist t = a :: l →
  Path.basename file ≠ [] →
  Os.isdir (Path.join destination (Spec.primary_artist cfg a)) s = true →
  (Os.lookup (Transfer.destination_path cfg destination a file) s = None
   ∨ ∃ g, Os.lookup (Transfer.destination_path cfg destination a file) s
          = Some (File g)
          ∧ readonly g = false
          ∧ Path.key (Transfer.destination_path cfg destination a file)
            ≠ Path.key file) →
  ∃ s', copy_item cfg destination file s = Ok () s'
        ∧ Path.key (Transfer.destination_path cfg destination a file)
          = Path.key (Path.join destination (Spec.primary_artist cfg a))
            ++ [Path.basename file]
        ∧ fs s' = <[Path.key (Transfer.destination_path cfg destination a file)
                     := File f]> (fs s)
        ∧ out s' = out s ++ [Item file;
                             Log (FolderExists (Spec.primary_artist cfg a));
                             Progress (S (pg_count s)) (pg_total s)].
Proof.
  intros Hl Ht Ha Hbase Hdir Htarget.
  set (folder := Spec.primary_artist cfg a) in *.
  set (target := Transfer.destination_path cfg destination a file) in *.
  assert (Path.key target = Path.key (Path.join destination folder)
                            ++ [Path.basename file]) as Hkey.
  { unfold target, Transfer.destination_path, Path.join3.
    apply key_join_name; [done|apply basename_no_sep]. }
  assert (target ≠ []) as Hne by (by apply join_nonempty).
  rewrite copy_item_transfer. unfold Transfer.item.
  unfold mbind at 1, M_bind at 1, write, modify.
  unfold mbind at 1, M_bind at 1.
  rewrite (EasyID3_file file _ f t); [|exact Hl|done].
  unfold mbind at 1, M_bind at 1. unfold Mutagen.getitem_artist. rewrite Ha.
  cbn [mret M_ret]. unfold mbind at 1, M_bind at 1.
  cbn [Py.index lookup list_lookup lift_index mret M_ret].
  fold folder. fold target.
  unfold mbind at 1, M_bind at 1. unfold try_except_only.
  rewrite mkdir_existing by exact Hdir. cbn [is_file_exists].
  unfold mbind at 1, M_bind at 1. unfold try_except.
  rewrite (copy2_file file target _ f); [|exact Hl|done| |exact Htarget].
  - eexists. split; [reflexivity|]. split; [done|]. split; [done|].
    simpl. by rewrite <- !app_assoc.
  - rewrite Hkey. apply parent_check_dir. by apply isdir_key in Hdir as [? _].
Qed.

Lemma copy_into_existing_folder_witness :
  ∃ s', copy_item Sample.cfg "/sorted" Sample.two (Sample.start Sample.library)
        = Ok () s'
        ∧ Path.key (Transfer.destination_path Sample.cfg "/sorted" "Artist B"
                      Sample.two)
          = Path.key (Path.join "/sorted"
                        (Spec.primary_artist Sample.cfg "Artist B"))
            ++ [Path.basename Sample.two]
        ∧ fs s' = <[Path.key (Transfer.destination_path Sample.cfg "/sorted"
                                "Artist B" Sample.two)
                     := File (Sample.song "Artist B" "Song Two")]>
                    (fs (Sample.start Sample.library))
        ∧ out s' = out (Sample.start Sample.library)
                   ++ [Item Sample.two;
                       Log (FolderExists
                              (Spec.primary_artist Sample.cfg "Artist B"));
                       Progress (S (pg_count (Sample.start Sample.library)))
                                (pg_total (Sample.start Sample.library))].
Proof.
  apply (copy_into_existing_folder Sample.cfg "/sorted" Sample.two
           (Sample.song "Artist B" "Song Two")
           (Id3 [lit "Artist B"] [lit "Song Two"] []) "Artist B" []
           (Sample.start Sample.library)).
  - vm_compute. reflexivity.
  - reflexivity.
  - reflexivity.
  - vm_compute. discriminate.
  - vm_compute. reflexivity.
  - left. vm_compute. reflexivity.
Defined.


(** ** Patterns that do not occur *)

Lemma search_cons r c s :
  Re.search r (c :: s) = false →
  Re.match_here r (c :: s) false = None ∧ Re.search r s = false.
Proof. simpl. by destruct (Re.match_here r (c :: s) false). Qed.

Lemma scan_no_match r s : Re.search r s = false → Re.scan r s 0 = inl <$> s.
Proof.
  induction s as [|c s IH].
  - simpl. by destruct (Re.match_here r [] false).
  - intros [Hm Hs]%search_cons. cbn [Re.scan]. rewrite Hm. simpl.
    by rewrite IH.
Qed.

Lemma sub_no_match r repl s : Re.search r s = false → Re.sub r repl s = s.
Proof.
  intros H. unfold Re.sub. rewrite scan_no_match by done.
  clear H. induction s as [|c s IH]; [done|]. simpl. f_equal. exact IH.
Qed.

Lemma split_no_match r s : Re.search r s = false → Re.split r s = [s].
Proof.
  intros H. unfold Re.split. rewrite scan_no_match by done.
  clear H. induction s as [|c s IH]; [done|].
  change (Re.pieces (inl <$> c :: s))
    with (match Re.pieces (inl <$> s) with
          | h :: t => (c :: h) :: t
          | [] => [[c]]
          end).
  by rewrite IH.
Qed.

Lemma key_nonempty p : p ≠ [] → Path.key p ≠ [].
Proof.
  destruct p as [|c p]; [done|]. intros _. unfold Path.key, Path.components.
  simpl. destruct (bool_decide (c = Path.sep)) eqn:Hc; [done|].
  apply bool_decide_eq_false in Hc. rewrite decide_False by done.
  pose proof (split_chr_nonempty Path.sep p).
  destruct (Py.split_chr Path.sep p); [done|].
  by rewrite filter_cons_True.
Qed.

Lemma key_nil : Path.key [] = [].
Proof. done. Qed.

Lemma join_split_nonempty p :
  p ≠ [] → Path.join (Path.split p).1 (Path.split p).2 ≠ [].
Proof.
  intros Hp He. apply (key_nonempty p Hp).
  by rewrite <- key_join_split, He.
Qed.

(** X1. A file name in which neither feature pattern occurs passes the
    two substitutions of lines 294-295 unchanged, and the [os.rename] of
    line 298 then renames the file onto itself: nothing changes, whatever
    form the path has. *)
Theorem unmarked_name_is_kept cfg file n s :
  Re.search (feature_tags cfg) (Path.basename file) = false →
  Re.search (feature2_tags cfg) (Path.basename file) = false →
  Os.lookup file s = Some n →
  Re.sub (feature2_tags cfg) "(ft. "
    (Re.sub (feature_tags cfg) " ft. " (Path.split file).2)
  = Path.basename file
  ∧ Os.rename file
      (Path.join (Path.split file).1
         (Re.sub (feature2_tags cfg) "(ft. "
            (Re.sub (feature_tags cfg) " ft. " (Path.split file).2))) s
    = Ok () s.
Proof.
  intros H1 H2 Hl.
  change (Path.split file).2 with (Path.basename file).
  rewrite (sub_no_match _ _ _ H1), (sub_no_match _ _ _ H2).
  split; [done|].
  apply (rename_same _ _ _ n); [done| |].
  - apply join_split_nonempty. by eapply lookup_nonempty.
  - symmetry. apply key_join_split.
Qed.

Lemma unmarked_name_is_kept_witness :
  Re.sub (feature2_tags Sample.cfg) "(ft. "
    (Re.sub (feature_tags Sample.cfg) " ft. " (Path.split Sample.one).2)
  = Path.basename Sample.one
  ∧ Os.rename Sample.one
      (Path.join (Path.split Sample.one).1
         (Re.sub (feature2_tags Sample.cfg) "(ft. "
            (Re.sub (feature_tags Sample.cfg) " ft. "
               (Path.split Sample.one).2))) (Sample.start Sample.library)
    = Ok () (Sample.start Sample.library).
Proof.
  apply (unmarked_name_is_kept Sample.cfg Sample.one
           (File (Sample.song "Artist A feat. Artist B" "Song One")));
    vm_compute; reflexivity.
Defined.


(** ** Tagging from the name *)

Lemma well_named_basename cfg file : well_named cfg file → Path.basename file ≠ [].
Proof. intros (_ & _ & _ & Hlen) Hb. by rewrite Hb in Hlen. Qed.

(** The turn of a well named file that can be tagged. *)
Lemma id3_item_tagged cfg source files file f t s :
  well_named cfg file →
  Os.lookup file s = Some (File f) → tags f = Some t → readonly f = false →
  id3_item cfg source files file s
  = Ok files
      (State (<[Path.key file :=
                  File (set_tags (Mutagen.written (name_tags file t)) f)]>
                (fs s))
             (S (pg_count s)) (pg_total s)
             (out s ++ [Item file; Progress (S (pg_count s)) (pg_total s)])).
Proof.
  intros (Hf1 & Hf2 & Hinv & Hlen) Hl Ht Hro.
  pose proof (key_join_split file) as Hkey.
  pose proof (join_split_nonempty file (lookup_nonempty _ _ _ Hl)) as Htmp.
  unfold id3_item, name_tags.
  destruct (Path.split file) as [head b] eqn:Hsp.
  assert (b = Path.basename file) as -> by (by injection Hsp as _ <-).
  simpl in Hkey, Htmp.
  rewrite (sub_no_match _ _ _ Hf1), (sub_no_match _ _ _ Hf2), Hinv.
  set (name := Path.basename file) in *.
  set (tmp := Path.join head name) in *.
  assert (Os.lookup tmp (emit (Item file) s) = Some (File f)) as Hl'.
  { rewrite lookup_emit, <- Hl. apply lookup_same_key; [done| |done].
    by eapply lookup_nonempty. }
  unfold mbind at 1, M_bind at 1, write, modify.
  unfold mbind at 1, M_bind at 1.
  rewrite (rename_same file tmp _ (File f)); [|done|done|done].
  destruct (Re.split (Re.Lit " - ") name) as [|a [|ti [|? ?]]]; try done.
  cbn [orb length Nat.eqb negb].
  unfold mbind at 1, M_bind at 1. unfold mbind at 1, M_bind at 1.
  rewrite (EasyID3_file _ _ _ _ Hl' Ht).
  cbn [Py.index lookup list_lookup lift_index].
  unfold mbind at 1, M_bind at 1. cbn [mret M_ret].
  unfold mbind at 1, M_bind at 1. unfold mbind at 1, M_bind at 1.
  cbn [mret M_ret].
  rewrite (save_file _ _ _ _ Hl' Hro).
  simpl. rewrite Hkey.
  unfold ProgressBar.inc_and_print, ProgressBar.print, write, modify, get,
    mbind, M_bind, emit, with_fs, set_title, set_artist. simpl.
  by rewrite <- app_assoc.
Qed.


(** ** The outer [try] of [get_artwork] *)

(** When it raises the state is as it was; when it returns, the file has
    been saved once, with the picture added to the tags held in memory. *)
Lemma artwork_try_outcome ds file tmp results s :
  match artwork_try ds file tmp results s with
  | Raise _ s' => s' = s
  | Ok _ s' =>
      ∃ f t type_ content uri status,
        tmp = Some t ∧ Os.lookup file s = Some (File f) ∧ readonly f = false ∧
        fetch ds uri = inr (content, status) ∧
        s' = with_fs (<[Path.key file :=
                File (set_tags (Mutagen.written
                                  (add_apic (Picture ("image/" ++ type_)
                                                     "Cover" content) t)) f)]>
                        (fs s)) s
  end.
Proof.
  unfold artwork_try. unfold mbind at 1, M_bind.
  pose proof (pure_try_except _ _ (pure_artwork_fetch ds results 0)
                (pure_artwork_fetch ds results 1) s) as Hp.
  destruct (try_except (artwork_fetch ds results 0) (artwork_fetch ds results 1) s)
    as [[ty c] s1|e s1] eqn:Hf; simpl in Hp; subst s1; [|done].
  assert (∃ uri status, fetch ds uri = inr (c, status)) as (uri & st & Hfetch).
  { unfold try_except in Hf.
    destruct (artwork_fetch ds results 0 s) as [[ty0 c0] s0|e0 s0] eqn:H0.
    - simplify_eq. by eapply artwork_fetch_Ok.
    - by eapply artwork_fetch_Ok. }
  destruct tmp as [t|]; simpl; [|done].
  unfold mbind, M_bind, mret, M_ret, Mutagen.save.
  destruct (Os.lookup file s) as [[|f]|] eqn:Hl; [done| |done].
  destruct (readonly f) eqn:Hro; [done|].
  by exists f, t, ty, c, uri, st.
Qed.

(** The HTTP status of a fetch is bound and never read. *)
Lemma artwork_fetch_status st ds results i s :
  artwork_fetch (with_status st ds) results i s = artwork_fetch ds results i s.
Proof.
  unfold artwork_fetch, mbind, M_bind.
  destruct (lift_sum results s) as [rs s1|e s1]; [|done].
  destruct (lift_index (Py.index rs i) s1) as [r s2|e s2]; [|done].
  destruct (lift_sum r s2) as [images s3|e s3]; [|done].
  destruct (lift_index (Py.index images 0) s3) as [image s4|e s4]; [|done].
  destruct (lift_index _ s4) as [ty s5|e s5]; [|done].
  simpl. by destruct (fetch ds image) as [e|[c r']].
Qed.

Lemma artwork_try_status st ds file tmp results s :
  artwork_try (with_status st ds) file tmp results s
  = artwork_try ds file tmp results s.
Proof.
  unfold artwork_try, try_except, mbind, M_bind.
  rewrite !artwork_fetch_status.
  destruct (artwork_fetch ds results 0 s) as [[ty c] s1|e s1]; [done|].
  by rewrite artwork_fetch_status.
Qed.

(** ** One turn of [get_artwork] *)

(** The turn, spelled out: what is read before the [try] decides whether
    the turn raises; the [try] itself never does. *)
Lemma artwork_item_unfold cfg ds file s :
  artwork_item cfg ds file s =
  let s1 := emit (Item file) s in
  match Os.lookup file s with
  | Some (File f) =>
      if synced f then
        match tags f with
        | Some t =>
            match artist t with
            | a :: _ =>
                let name :=
                  Py.strip (first_piece (Re.split (feature_tags cfg)
                    (Py.strip (first_piece (Re.split (and_tags cfg) a))))) in
                match artwork_try ds file (Some t) (search ds name) s1 with
                | Ok _ s2 | Raise _ s2 => ProgressBar.inc_and_print s2
                end
            | [] => Raise KeyError s1
            end
        | None => Raise ID3NoHeaderError s1
        end
      else Raise MutagenError s1
  | _ => Raise MutagenError s1
  end.
Proof.
  unfold artwork_item, Mutagen.MP3, Mutagen.EasyID3, Mutagen.read,
    Mutagen.add_tags, artwork_artist, Mutagen.getitem_artist,
    try_except_only, try_except, write, modify, mbind, M_bind, mret, M_ret,
    raise, lift_index, Os.lookup. simpl.
  destruct (bool_decide (file = [])); simpl; [done|].
  destruct (fs s !! Path.key file) as [[|f]|] eqn:Hl; simpl; [done| |done].
  destruct (synced f); simpl; [|done].
  destruct (tags f) as [t|] eqn:Ht; simpl; rewrite ?Hl; simpl; rewrite ?Ht;
    simpl; [|done].
  destruct (artist t) as [|a l]; simpl; [done|].
  by destruct (artwork_try _ _ _ _ _) as [[] ?|? ?].
Qed.

(** C5, as the code has it. The body of the [try] leaves the whole state
    untouched whenever it raises, whatever step failed, and it raises when
    the search has no result; when it returns, the file has been saved
    once with the fetched bytes embedded. So one turn of [get_artwork]
    leaves the filesystem as it was or has saved the file once, picture
    included. What counts as a failed fetch is a raised exception only: the
    HTTP status that comes with the bytes is never read, and the turn is
    the same whatever the status is. *)
Theorem artwork_all_or_nothing cfg ds file s :
  (∀ tmp results,
     match artwork_try ds file tmp results s with
     | Raise _ s' => s' = s
     | Ok _ s' =>
         ∃ f t type_ content uri status,
           tmp = Some t ∧ Os.lookup file s = Some (File f) ∧
           fetch ds uri = inr (content, status) ∧
           fs s' = <[Path.key file :=
                      File (set_tags (Mutagen.written
                                        (add_apic (Picture ("image/" ++ type_)
                                                     "Cover" content) t)) f)]>
                     (fs s)
     end)
  ∧ (∀ tmp, artwork_try ds file tmp (inr []) s = Raise IndexError s)
  ∧ (fs (final (artwork_item cfg ds file s)) = fs s
     ∨ ∃ f t type_ content uri status,
         Os.lookup file s = Some (File f) ∧ tags f = Some t ∧
         fetch ds uri = inr (content, status) ∧
         raised (artwork_item cfg ds file s) = None ∧
         fs (final (artwork_item cfg ds file s))
         = <[Path.key file :=
              File (set_tags (Mutagen.written
                                (add_apic (Picture ("image/" ++ type_)
                                             "Cover" content) t)) f)]> (fs s))
  ∧ (∀ st, artwork_item cfg (with_status st ds) file s
           = artwork_item cfg ds file s).
Proof.
  split; [|split; [|split]].
  - intros tmp results. pose proof (artwork_try_outcome ds file tmp results s) as H.
    destruct (artwork_try ds file tmp results s) as [[] s'|e s']; [|done].
    destruct H as (f & t & ty & c & uri & st & -> & Hl & _ & Hf & ->).
    by exists f, t, ty, c, uri, st.
  - done.
  - rewrite artwork_item_unfold. cbv zeta.
    destruct (Os.lookup file s) as [[|f]|] eqn:Hl; [by left| |by left].
    destruct (synced f); [|by left].
    destruct (tags f) as [t|] eqn:Ht; [|by left].
    destruct (artist t) as [|a l]; [by left|].
    match goal with |- context [artwork_try ?d ?f ?t ?r ?s] =>
      pose proof (artwork_try_outcome d f t r s) as H;
      destruct (artwork_try d f t r s) as [[] s2|e s2] end.
    + destruct H as (f' & t' & ty & c & uri & st & [= <-] & Hl' & _ & Hf & ->).
      right. exists f, t, ty, c, uri, st.
      assert (f' = f) as -> by (unfold Os.lookup in *; simpl in *; congruence).
      done.
    + subst s2. by left.
  - intros st. rewrite !artwork_item_unfold. cbv zeta.
    destruct (Os.lookup file s) as [[|f]|]; [done| |done].
    destruct (synced f); [|done].
    destruct (tags f) as [t|]; [|done].
    destruct (artist t) as [|a l]; [done|].
    by rewrite artwork_try_status.
Qed.

(** C5 as stated fails: the image server answers with an error page and
    the status 404. Nothing is raised, so the page is embedded as the
    cover and the file is saved. *)
Lemma error_page_is_embedded :
  ∃ s', get_artwork Sample.cfg Sample.refusing [Sample.two]
          (Sample.start Sample.library) = Ok [Sample.two] s'
        ∧ Os.lookup Sample.two s'
          = Some (File (Mp3 Sample.frames true
                          (Some (Id3 [lit "Artist B"] [lit "Song Two"]
                                   [Picture "image/jpeg" "Cover"
                                            "404 Not Found"]))
                          false))
        ∧ Os.lookup Sample.two (Sample.start Sample.library)
          = Some (File (Sample.song "Artist B" "Song Two")).
Proof.
  eexists. split; [|split].
  - apply run_returned. vm_compute. reflexivity.
  - vm_compute. reflexivity.
  - vm_compute. reflexivity.
Qed.


(** ** Failure isolation *)

Lemma readable_same_fs file s s' : fs s' = fs s → readable file s → readable file s'.
Proof.
  intros Hfs (f & t & Hl & Hs & Ht & Ha). exists f, t.
  unfold Os.lookup in *. by rewrite Hfs.
Qed.

Lemma text_frame_kept l :
  Mutagen.text_frame l ≠ [] → Mutagen.text_frame (Mutagen.text_frame l) ≠ [].
Proof. by destruct l as [|[|c a] [|b l]]. Qed.

(** A readable file gets its full turn, whatever the provider does, and
    every readable file stays readable. *)
Lemma artwork_item_readable cfg ds file s :
  readable file s →
  ∃ s', artwork_item cfg ds file s = Ok () s'
        ∧ ∀ file', readable file' s → readable file' s'.
Proof.
  intros (f & t & Hl & Hs & Ht & Ha). rewrite artwork_item_unfold. cbv zeta.
  rewrite Hl, Hs, Ht. destruct (artist t) as [|a l] eqn:Hart; [done|].
  match goal with |- context [artwork_try ?d ?f ?t ?r ?s] =>
    pose proof (artwork_try_outcome d f t r s) as H;
    destruct (artwork_try d f t r s) as [[] s2|e s2] end.
  - destruct H as (f' & t' & ty & c & uri & st & [= <-] & Hl' & _ & _ & ->).
    assert (f' = f) as -> by (unfold Os.lookup in *; simpl in *; congruence).
    eexists. split; [done|]. intros file' (g & u & Hg & Hgs & Hu & Hau).
    unfold readable, Os.lookup in *. simpl.
    destruct (bool_decide (file' = [])); [done|].
    destruct (decide (Path.key file = Path.key file')) as [Heq|Hne].
    + rewrite <- Heq, lookup_insert_eq. eexists _, _.
      split; [done|]. split; [done|]. split; [done|]. simpl.
      rewrite Hart. by apply text_frame_kept.
    + rewrite lookup_insert_ne by done. by exists g, u.
  - subst s2. eexists. split; [done|]. intros file'.
    by apply readable_same_fs.
Qed.

Lemma for_each_artwork_readable cfg ds files : ∀ s,
  (∀ f, f ∈ files → readable f s) →
  ∃ s', for_each (artwork_item cfg ds) files s = Ok () s'.
Proof.
  induction files as [|f files IH]; intros s Hall; simpl; [by eexists|].
  destruct (artwork_item_readable cfg ds f s) as (s1 & Hitem & Hkeep).
  { apply Hall. by left. }
  unfold mbind, M_bind. rewrite Hitem. apply IH.
  intros f' Hf'. apply Hkeep, Hall. by right.
Qed.

(** ** Files that stay *)

Lemma files_kept_refl s : files_kept s s.
Proof. intros p f Hl. by exists f. Qed.

Lemma files_kept_trans s1 s2 s3 :
  files_kept s1 s2 → files_kept s2 s3 → files_kept s1 s3.
Proof.
  intros H12 H23 p f Hl.
  destruct (H12 p f Hl) as (f2 & Hl2 & Hr2 & Ht2).
  destruct (H23 p f2 Hl2) as (f3 & Hl3 & Hr3 & Ht3).
  exists f3. split; [done|]. split; [congruence|]. by rewrite Ht3.
Qed.

Lemma files_kept_same_fs s s' : fs s' = fs s → files_kept s s'.
Proof. intros Hfs p f Hl. exists f. unfold Os.lookup in *. by rewrite Hfs. Qed.

Lemma files_kept_mkdir k s s' :
  fs s !! k = None → fs s' = <[k := Dir]> (fs s) → files_kept s s'.
Proof.
  intros Hk Hfs p f Hl. exists f. split; [|done].
  unfold Os.lookup in *. destruct (bool_decide (p = [])); [done|].
  rewrite Hfs, lookup_insert_ne; [done|]. intros Heq. rewrite Heq in Hk.
  congruence.
Qed.

Lemma files_kept_retag file f t' s s' :
  Os.lookup file s = Some (File f) → tags f ≠ None →
  fs s' = <[Path.key file := File (set_tags t' f)]> (fs s) →
  files_kept s s'.
Proof.
  intros Hfile Ht Hfs p g Hl. unfold Os.lookup in *.
  destruct (bool_decide (file = [])); [done|].
  destruct (bool_decide (p = [])); [done|]. rewrite Hfs.
  destruct (decide (Path.key file = Path.key p)) as [Heq|Hne].
  - rewrite <- Heq, lookup_insert_eq. rewrite <- Heq, Hfile in Hl.
    injection Hl as <-. eexists. split; [done|]. split; [done|]. simpl.
    split; [done|]. intros ?. by destruct Ht.
  - rewrite lookup_insert_ne by done. by exists g.
Qed.

Lemma taggable_kept file s s' : files_kept s s' → taggable file s → taggable file s'.
Proof.
  intros Hk (f & t & Hl & Ht & Hr).
  destruct (Hk file f Hl) as (f' & Hl' & Hr' & Ht').
  destruct (tags f') as [t'|] eqn:Hf'.
  - exists f', t'. split; [done|]. split; [done|]. congruence.
  - destruct Ht' as [Ht' _]. rewrite Ht' in Ht; done.
Qed.

Lemma headerless_kept file f s s' :
  files_kept s s' → Os.lookup file s = Some (File f) → tags f = None →
  ∃ f', Os.lookup file s' = Some (File f') ∧ tags f' = None.
Proof.
  intros Hk Hl Ht. destruct (Hk file f Hl) as (f' & Hl' & _ & Ht').
  exists f'. split; [done|]. by apply Ht'.
Qed.

(** ** The loop of [id3_correct] on well named files *)

(** The turn of a well named file without ID3 header: [EasyID3] raises,
    nothing has been changed. *)
Lemma id3_item_headerless cfg source files file f s :
  well_named cfg file →
  Os.lookup file s = Some (File f) → tags f = None →
  id3_item cfg source files file s
  = Raise ID3NoHeaderError (emit (Item file) s).
Proof.
  intros (Hf1 & Hf2 & Hinv & Hlen) Hl Ht.
  pose proof (key_join_split file) as Hkey.
  pose proof (join_split_nonempty file (lookup_nonempty _ _ _ Hl)) as Htmp.
  unfold id3_item.
  destruct (Path.split file) as [head b] eqn:Hsp.
  assert (b = Path.basename file) as -> by (by injection Hsp as _ <-).
  simpl in Hkey, Htmp.
  rewrite (sub_no_match _ _ _ Hf1), (sub_no_match _ _ _ Hf2), Hinv.
  set (name := Path.basename file) in *.
  set (tmp := Path.join head name) in *.
  assert (Os.lookup tmp (emit (Item file) s) = Some (File f)) as Hl'.
  { rewrite lookup_emit, <- Hl. apply lookup_same_key; [done| |done].
    by eapply lookup_nonempty. }
  unfold mbind at 1, M_bind at 1, write, modify.
  unfold mbind at 1, M_bind at 1.
  rewrite (rename_same file tmp _ (File f)); [|done|done|done].
  destruct (Re.split (Re.Lit " - ") name) as [|a [|ti [|? ?]]]; try done.
  cbn [orb length Nat.eqb negb].
  unfold mbind at 1, M_bind at 1. unfold mbind at 1, M_bind at 1.
  unfold Mutagen.EasyID3, Mutagen.read, mbind, M_bind. by rewrite Hl', Ht.
Qed.

(** [n] turns on well named files that can be tagged: the list is as it
    was and the loop stands [n] items further. *)
Lemma id3_loop_tags cfg source files : ∀ n fuel i s,
  (∀ j g, i ≤ j < i + n → files !! j = Some g →
          well_named cfg g ∧ taggable g s) →
  i + n ≤ length files →
  ∃ s1, id3_loop cfg source (n + fuel) files i s
        = id3_loop cfg source fuel files (i + n) s1
        ∧ files_kept s s1
        ∧ out s1 = out s ++ rounds (pg_total s) (S (pg_count s))
                              (take n (drop i files))
        ∧ pg_total s1 = pg_total s ∧ pg_count s1 = pg_count s + n.
Proof.
  induction n as [|n IH]; intros fuel i s Hgood Hlen.
  - exists s. rewrite Nat.add_0_r, take_0, app_nil_r.
    split; [done|]. split; [apply files_kept_refl|]. split; [done|].
    split; [done|lia].
  - destruct (lookup_lt_is_Some_2 files i) as [g Hg]; [lia|].
    destruct (Hgood i g) as (Hwn & f & t & Hl & Ht & Hro); [lia|done|].
    cbn [Nat.add id3_loop]. rewrite Hg.
    rewrite (id3_item_tagged cfg source files g f t s) by done.
    set (s' := State _ _ _ _).
    assert (files_kept s s') as Hkept.
    { apply (files_kept_retag g f (Mutagen.written (name_tags g t)));
        [done|by rewrite Ht|done]. }
    destruct (IH fuel (S i) s') as (s1 & Hloop & Hk1 & Hout & Htot & Hcnt).
    { intros j h Hj Hh. destruct (Hgood j h) as [? ?]; [lia|done|].
      split; [done|]. by eapply taggable_kept. }
    { lia. }
    exists s1. rewrite Hloop. replace (S i + n) with (i + S n) by lia.
    split; [done|]. split; [by eapply files_kept_trans|].
    rewrite Hout, Htot, Hcnt. simpl.
    rewrite (drop_S files g i Hg). simpl. rewrite <- app_assoc. simpl.
    split; [done|]. split; [done|lia].
Qed.

(** ** Before the loop of [id3_correct] *)

Lemma id3_prelude_outcome source files s :
  ∃ s', id3_prelude source files s = Ok () s'
    ∧ pg_count s' = 0 ∧ pg_total s' = length files
    ∧ ((fs s' = fs s
        ∧ out s' = out s ++ [Log InvalidDirExists; Progress 0 (length files)])
       ∨ (fs s !! Path.key (Path.join source "_invalid") = None
          ∧ Os.parent_check (Path.key (Path.join source "_invalid")) s = None
          ∧ fs s' = <[Path.key (Path.join source "_invalid") := Dir]> (fs s)
          ∧ out s' = out s ++ [Progress 0 (length files)])).
Proof.
  unfold id3_prelude, try_except, Os.mkdir, ProgressBar.new, ProgressBar.print,
    write, modify, get, mbind, M_bind.
  destruct (bool_decide (Path.join source "_invalid" = []));
    [eexists; split; [done|]; split; [done|]; split; [done|]; left;
     split; [done|]; simpl; by rewrite <- app_assoc|].
  destruct (fs s !! Path.key (Path.join source "_invalid")) eqn:Hk;
    [eexists; split; [done|]; split; [done|]; split; [done|]; left;
     split; [done|]; simpl; by rewrite <- app_assoc|].
  destruct (Os.parent_check (Path.key (Path.join source "_invalid")) s) eqn:Hp;
    [eexists; split; [done|]; split; [done|]; split; [done|]; left;
     split; [done|]; simpl; by rewrite <- app_assoc|].
  eexists. split; [done|]. split; [done|]. split; [done|]. by right.
Qed.

Lemma prelude_keeps source files s s' :
  id3_prelude source files s = Ok () s' → files_kept s s'.
Proof.
  destruct (id3_prelude_outcome source files s)
    as (s0 & Hrun & _ & _ & [[Hfs _]|(Hk & _ & Hfs & _)]);
    rewrite Hrun; intros [= <-].
  - by apply files_kept_same_fs.
  - by eapply files_kept_mkdir.
Qed.

Lemma visited_prelude source files s s' :
  id3_prelude source files s = Ok () s' → visited (out s') = visited (out s).
Proof.
  destruct (id3_prelude_outcome source files s)
    as (s0 & Hrun & _ & _ & [[_ Hout]|(_ & _ & _ & Hout)]);
    rewrite Hrun; intros [= <-]; rewrite Hout, visited_app; simpl;
    by rewrite app_nil_r.
Qed.

(** C2, as the code has it. In [get_artwork], when every file of the batch
    can be opened, has MPEG frames and carries an artist, no failure of the
    artwork step (search, fetch, embed, save) ends the batch: whatever the
    provider answers, the run returns the list and has bound every item, in
    order. In [id3_correct] no turn is guarded: a well named file without
    ID3 header, standing after any number of well named files that can be
    tagged, ends the run with [ID3NoHeaderError], and no item after it is
    bound, whatever follows it in the list. *)
Theorem artwork_failures_are_isolated cfg ds source :
  (∀ files s,
     (∀ f, f ∈ files → readable f s) →
     ∃ s', get_artwork cfg ds files s = Ok files s'
           ∧ visited (out s') = visited (out s) ++ files)
  ∧ (∀ done file rest f s,
       (∀ g, g ∈ done → well_named cfg g ∧ taggable g s) →
       well_named cfg file →
       Os.lookup file s = Some (File f) → tags f = None →
       ∃ s', id3_correct cfg source (done ++ file :: rest) s
             = Some (Raise ID3NoHeaderError s')
             ∧ visited (out s') = visited (out s) ++ done ++ [file]).
Proof.
  split.
  - intros files s Hall.
    destruct (get_artwork_run cfg ds files s) as (done & rest & Hfiles & Hrun).
    assert (∃ s', get_artwork cfg ds files s = Ok files s') as (s' & Hok).
    { unfold get_artwork, ProgressBar.new, ProgressBar.print, write, modify, get.
      unfold mbind at 1 2 3 4, M_bind. simpl. set (s0 := emit _ _).
      destruct (for_each_artwork_readable cfg ds files s0) as (s1 & Hloop).
      { intros f Hf. by apply (readable_same_fs f s), Hall. }
      unfold mbind, M_bind. rewrite Hloop. simpl. by eexists. }
    exists s'. split; [done|]. rewrite Hok in Hrun.
    destruct Hrun as (-> & _ & ->). rewrite app_nil_r in Hfiles. subst done.
    rewrite visited_app. simpl. by rewrite visited_app, visited_rounds, app_nil_r.
  - intros done file rest f s Hdone Hwn Hl Ht.
    unfold id3_correct.
    destruct (id3_prelude_outcome source (done ++ file :: rest) s)
      as (s0 & Hpre & _ & _ & _).
    rewrite Hpre.
    pose proof (prelude_keeps _ _ _ _ Hpre) as Hk0.
    pose proof (visited_prelude _ _ _ _ Hpre) as Hv0.
    replace (length (done ++ file :: rest))
      with (length done + S (length rest))
      by (rewrite length_app; simpl; lia).
    destruct (id3_loop_tags cfg source (done ++ file :: rest) (length done)
                (S (length rest)) 0 s0) as (s1 & Hloop & Hk1 & Hout & _ & _).
    { intros j g Hj Hg. rewrite lookup_app_l in Hg by lia.
      apply list_elem_of_lookup_2 in Hg.
      destruct (Hdone g Hg) as [? ?]. split; [done|].
      by eapply taggable_kept. }
    { rewrite length_app. simpl. lia. }
    rewrite Hloop. cbn [Nat.add id3_loop].
    rewrite list_lookup_middle by done.
    destruct (headerless_kept file f s s1) as (f1 & Hl1 & Ht1);
      [by eapply files_kept_trans|done|done|].
    rewrite (id3_item_headerless cfg source _ file f1 s1) by done.
    eexists. split; [done|]. simpl.
    rewrite Hout, drop_0, take_app_length.
    rewrite !visited_app, visited_rounds, Hv0. simpl.
    by rewrite <- app_assoc.
Qed.

(** C2 as stated fails: [id3_correct] on two well named files, the first
    without ID3 header, raises in the turn of the first file and never
    binds the second. *)
Lemma retag_failure_aborts_batch :
  ∃ s', id3_correct Sample.cfg "/music" [Sample.one; Sample.two]
          (Sample.start Sample.headerless) = Some (Raise ID3NoHeaderError s')
        ∧ visited (out s') = [Sample.one]
        ∧ fs s' !! Path.key Sample.two
          = Some (File (Sample.song "Artist B" "Song Two")).
Proof.
  eexists. split; [|split].
  - apply (loop_raised _ _ (Sample.start Sample.headerless)).
    vm_compute. reflexivity.
  - vm_compute. reflexivity.
  - vm_compute. reflexivity.
Qed.

(** The isolation at work: the provider finds nothing for either artist,
    both turns fail inside the [try], both files are bound and the list
    comes back. And its absence: [id3_correct] tags the first file, fails
    on the second, which has no ID3 header, and never binds the third. *)
Lemma artwork_failures_are_isolated_witness :
  (∃ s', get_artwork Sample.cfg Sample.silent [Sample.one; Sample.two]
           (Sample.start Sample.library) = Ok [Sample.one; Sample.two] s'
         ∧ visited (out s') = visited (out (Sample.start Sample.library))
                              ++ [Sample.one; Sample.two])
  ∧ (∃ s', id3_correct Sample.cfg "/music"
             ([Sample.two] ++ Sample.one :: [Sample.bad])
             (Sample.start Sample.headerless)
           = Some (Raise ID3NoHeaderError s')
           ∧ visited (out s') = visited (out (Sample.start Sample.headerless))
                                ++ [Sample.two] ++ [Sample.one]).
Proof.
  destruct (artwork_failures_are_isolated Sample.cfg Sample.silent "/music")
    as (Hiso & Habort).
  split.
  - apply (Hiso [Sample.one; Sample.two] (Sample.start Sample.library)).
    intros f Hf. apply elem_of_cons in Hf as [->|Hf];
      [|apply elem_of_cons in Hf as [->|Hf]; [|by apply elem_of_nil in Hf]].
    + exists (Sample.song "Artist A feat. Artist B" "Song One"),
        (Id3 [lit "Artist A feat. Artist B"] [lit "Song One"] []).
      split; [vm_compute; reflexivity|]. split; [reflexivity|].
      split; [reflexivity|]. vm_compute. discriminate.
    + exists (Sample.song "Artist B" "Song Two"),
        (Id3 [lit "Artist B"] [lit "Song Two"] []).
      split; [vm_compute; reflexivity|]. split; [reflexivity|].
      split; [reflexivity|]. vm_compute. discriminate.
  - apply (Habort [Sample.two] Sample.one [Sample.bad] Sample.untagged
             (Sample.start Sample.headerless)).
    + intros g Hg.
      apply elem_of_cons in Hg as [->|Hg]; [|by apply elem_of_nil in Hg].
      split.
      * split; [vm_compute; reflexivity|]. split; [vm_compute; reflexivity|].
        split; vm_compute; reflexivity.
      * exists (Sample.song "Artist B" "Song Two"),
          (Id3 [lit "Artist B"] [lit "Song Two"] []).
        split; [vm_compute; reflexivity|]. split; reflexivity.
    + split; [vm_compute; reflexivity|]. split; [vm_compute; reflexivity|].
      split; vm_compute; reflexivity.
    + vm_compute. reflexivity.
    + reflexivity.
Defined.


(** C7 as stated fails: a file of that very name without ID3 header.
    [EasyID3] raises, the turn ends there, nothing is tagged and the bar
    is not advanced. *)
Lemma retag_without_header_raises :
  ∃ s', id3_item Sample.cfg "/music" [Sample.one] Sample.one
          (Sample.start Sample.headerless) = Raise ID3NoHeaderError s'
        ∧ Path.basename Sample.one = "Artist A - Song One.mp3"
        ∧ Os.lookup Sample.one s' = Some (File Sample.untagged)
        ∧ progress (out s') = [].
Proof.
  eexists. split; [|split; [|split]].
  - apply run_raised. vm_compute. reflexivity.
  - vm_compute. reflexivity.
  - vm_compute. reflexivity.
  - vm_compute. reflexivity.
Qed.

(** ** Copy and move: the batch *)

Lemma binds_nothing_ret {A} (a : A) : binds_nothing (mret a : M A).
Proof. by intros s. Qed.

Lemma binds_nothing_quiet {A} (m : M A) : quiet m → binds_nothing m.
Proof. intros Hq s. destruct (Hq s) as (Ho & _). by rewrite Ho. Qed.

Lemma binds_nothing_bind {A B} (m : M A) (f : A → M B) :
  binds_nothing m → (∀ a, binds_nothing (f a)) → binds_nothing (m ≫= f).
Proof.
  intros Hm Hf s. specialize (Hm s). unfold mbind, M_bind.
  destruct (m s) as [a s1|e s1]; simpl in *; [|done].
  by rewrite (Hf a s1).
Qed.

Lemma binds_nothing_log l : binds_nothing (write (Log l)).
Proof. intros s. simpl. rewrite visited_app. simpl. by rewrite app_nil_r. Qed.

Lemma binds_nothing_try_except {A} (m h : M A) :
  binds_nothing m → binds_nothing h → binds_nothing (try_except m h).
Proof.
  intros Hm Hh s. specialize (Hm s). unfold try_except.
  destruct (m s) as [a s1|e s1]; simpl in *; [done|]. by rewrite (Hh s1).
Qed.

Lemma binds_nothing_try_except_only {A} (m h : M A) c :
  binds_nothing m → binds_nothing h → binds_nothing (try_except_only m c h).
Proof.
  intros Hm Hh s. specialize (Hm s). unfold try_except_only.
  destruct (m s) as [a s1|e s1]; simpl in *; [done|].
  destruct (c e); [by rewrite (Hh s1)|done].
Qed.

Lemma binds_nothing_inc : binds_nothing ProgressBar.inc_and_print.
Proof. intros s. simpl. rewrite visited_app. simpl. by rewrite app_nil_r. Qed.

(** One turn binds its file and nothing else, whether it returns or
    raises, when the action binds nothing. *)
Lemma transfer_item_visits cfg destination action file s :
  (∀ a b, binds_nothing (action a b)) →
  visited (out (final (Transfer.item cfg destination action file s)))
  = visited (out s) ++ [file].
Proof.
  intros Hact. unfold Transfer.item.
  unfold mbind at 1, M_bind at 1, write, modify.
  match goal with |- context [final (?m (emit (Item file) s))] =>
    assert (binds_nothing m) as Hm end.
  { apply binds_nothing_bind; [apply binds_nothing_quiet; auto with io|].
    intros t. apply binds_nothing_bind; [apply binds_nothing_quiet; auto with io|].
    intros l. apply binds_nothing_bind; [apply binds_nothing_quiet; auto with io|].
    intros a. apply binds_nothing_bind.
    { apply binds_nothing_try_except_only;
        [apply binds_nothing_quiet; auto with io|apply binds_nothing_log]. }
    intros _. apply binds_nothing_bind.
    { apply binds_nothing_try_except; [apply Hact|apply binds_nothing_log]. }
    intros _. apply binds_nothing_inc. }
  rewrite (Hm (emit (Item file) s)). simpl. by rewrite visited_app.
Qed.

Lemma transfer_loop_visits cfg destination action files : ∀ s,
  (∀ a b, binds_nothing (action a b)) →
  ∃ done rest, files = done ++ rest ∧
    match for_each (Transfer.item cfg destination action) files s with
    | Ok _ s' => rest = [] ∧ visited (out s') = visited (out s) ++ files
    | Raise _ s' =>
        ∃ f rest', rest = f :: rest'
                   ∧ visited (out s') = visited (out s) ++ done ++ [f]
    end.
Proof.
  induction files as [|file files IH]; intros s Hact.
  - exists [], []. split; [done|]. simpl. by rewrite app_nil_r.
  - pose proof (transfer_item_visits cfg destination action file s Hact) as Hv.
    simpl. unfold mbind, M_bind.
    destruct (Transfer.item cfg destination action file s) as [[] s1|e s1];
      simpl in Hv.
    + destruct (IH s1 Hact) as (done & rest & -> & Hrun).
      exists (file :: done), rest. split; [done|].
      destruct (for_each _ (done ++ rest) s1) as [[] s2|e s2].
      * destruct Hrun as (-> & Hv2). split; [done|].
        by rewrite Hv2, Hv, <- app_assoc.
      * destruct Hrun as (f & rest' & -> & Hv2). exists f, rest'.
        split; [done|]. by rewrite Hv2, Hv, <- !app_assoc.
    + exists [], (file :: files). split; [done|]. by exists file, files.
Qed.

(** When the folder step does not raise, the turn is the guarded action
    at the destination path followed by the bar, and it returns. *)
Lemma transfer_item_prepared cfg destination action file f t a l s :
  Os.lookup file s = Some (File f) → tags f = Some t → artist t = a :: l →
  raised (try_except_only
            (Os.mkdir (Path.join destination (Spec.primary_artist cfg a)))
            is_file_exists
            (write (Log (FolderExists (Spec.primary_artist cfg a))))
            (emit (Item file) s)) = None →
  Transfer.item cfg destination action file s
  = (try_except (action file (Transfer.destination_path cfg destination a file))
                (write (Log (ErrorCopying file)));;
     ProgressBar.inc_and_print)
      (final (try_except_only
                (Os.mkdir (Path.join destination (Spec.primary_artist cfg a)))
                is_file_exists
                (write (Log (FolderExists (Spec.primary_artist cfg a))))
                (emit (Item file) s)))
  ∧ raised (Transfer.item cfg destination action file s) = None.
Proof.
  intros Hl Ht Ha Hmk.
  match goal with |- ?lhs = ?rhs ∧ _ => assert (lhs = rhs) as Heq end.
  { unfold Transfer.item.
    unfold mbind at 1, M_bind at 1, write, modify.
    unfold mbind at 1, M_bind at 1.
    rewrite (EasyID3_file file _ f t); [|exact Hl|done].
    unfold mbind at 1, M_bind at 1. unfold Mutagen.getitem_artist. rewrite Ha.
    cbn [mret M_ret]. unfold mbind at 1, M_bind at 1.
    cbn [Py.index lookup list_lookup lift_index mret M_ret].
    unfold mbind at 1, M_bind at 1.
    by destruct (try_except_only _ _ _ (emit (Item file) s)) as [[] s1|e s1]. }
  split; [done|]. rewrite Heq.
  destruct (try_except_only _ _ _ (emit (Item file) s)) as [[] s1|e s1];
    [|done].
  simpl. unfold mbind, M_bind, try_except.
  match goal with |- context [action ?x ?y s1] =>
    by destruct (action x y s1) end.
Qed.

Lemma folder_step_existing p l s :
  Os.isdir p s = true →
  try_except_only (Os.mkdir p) is_file_exists (write (Log l)) s
  = Ok () (emit (Log l) s).
Proof. intros Hd. unfold try_except_only. by rewrite mkdir_existing. Qed.

(** [shutil.move] of a file onto a free path in an existing directory. *)
Lemma move_file src dst s f :
  Os.lookup src s = Some (File f) → dst ≠ [] →
  Os.parent_check (Path.key dst) s = None →
  Os.lookup dst s = None →
  Shutil.move src dst s
  = Ok () (with_fs (<[Path.key dst := File f]>
                      (delete (Path.key src) (fs s))) s).
Proof.
  intros Hl Hd Hp Hfree.
  assert (fs s !! Path.key dst = None) as Hk
    by (unfold Os.lookup in Hfree; by rewrite bool_decide_false in Hfree).
  unfold Shutil.move, mbind, M_bind, get, try_with, Os.isdir.
  rewrite Hfree. simpl.
  rewrite (rename_file src dst s f); [|done|done|done|by rewrite Hk].
  rewrite bool_decide_false; [done|].
  intros Heq. apply lookup_key in Hl. congruence.
Qed.

(** C10. [file_copy] and [file_move] are one batch function, the loop of
    one turn per file, taken at [shutil.copy2] and at [shutil.move]. Such
    a batch binds the files in order and, when it comes to its end, has
    bound them all and returns the list it was given. When the folder step
    of a turn does not raise, the turn is the action, guarded, on the file
    and the path made of the destination, the primary artist and the
    basename, followed by the bar; an error of the action is logged and
    the turn returns. Where the folder exists and the path is free, both
    turns put the file there; the copy leaves the source, the move takes
    it away, and nothing else differs. *)
Theorem copy_and_move_differ_in_action_only cfg destination :
  (∀ files s,
     file_copy cfg destination files s
     = Transfer.run cfg destination Shutil.copy2 files s
     ∧ file_move cfg destination files s
       = Transfer.run cfg destination Shutil.move files s)
  ∧ (∀ action files s,
       (∀ a b, binds_nothing (action a b)) →
       ∃ done rest, files = done ++ rest ∧
         match Transfer.run cfg destination action files s with
         | Ok files' s' =>
             rest = [] ∧ files' = files
             ∧ visited (out s') = visited (out s) ++ files
         | Raise _ s' =>
             ∃ f rest', rest = f :: rest'
                        ∧ visited (out s') = visited (out s) ++ done ++ [f]
         end)
  ∧ (∀ action file f t a l s,
       Os.lookup file s = Some (File f) → tags f = Some t →
       artist t = a :: l →
       raised (try_except_only
                 (Os.mkdir (Path.join destination (Spec.primary_artist cfg a)))
                 is_file_exists
                 (write (Log (FolderExists (Spec.primary_artist cfg a))))
                 (emit (Item file) s)) = None →
       Transfer.item cfg destination action file s
       = (try_except
            (action file (Transfer.destination_path cfg destination a file))
            (write (Log (ErrorCopying file)));;
          ProgressBar.inc_and_print)
           (final (try_except_only
                     (Os.mkdir (Path.join destination
                                  (Spec.primary_artist cfg a)))
                     is_file_exists
                     (write (Log (FolderExists (Spec.primary_artist cfg a))))
                     (emit (Item file) s)))
       ∧ raised (Transfer.item cfg destination action file s) = None)
  ∧ (∀ file f t a l s,
       Os.lookup file s = Some (File f) → tags f = Some t →
       artist t = a :: l →
       Path.basename file ≠ [] →
       Os.isdir (Path.join destination (Spec.primary_artist cfg a)) s = true →
       Os.lookup (Transfer.destination_path cfg destination a file) s = None →
       fs (final (copy_item cfg destination file s))
       = <[Path.key (Transfer.destination_path cfg destination a file)
            := File f]> (fs s)
       ∧ fs (final (move_item cfg destination file s))
         = <[Path.key (Transfer.destination_path cfg destination a file)
              := File f]> (delete (Path.key file) (fs s))
       ∧ out (final (copy_item cfg destination file s))
         = out (final (move_item cfg destination file s))).
Proof.
  split; [|split; [|split]].
  - intros files s. unfold file_copy, file_move, Transfer.run.
    assert (∀ (b1 b2 : str → M unit) l s0,
              (∀ x s1, b1 x s1 = b2 x s1) → for_each b1 l s0 = for_each b2 l s0)
      as Hext.
    { intros b1 b2 l. induction l as [|x l IH]; intros s0 Hb; [done|].
      simpl. unfold mbind, M_bind. rewrite Hb.
      destruct (b2 x s0); [by apply IH|done]. }
    unfold mbind, M_bind. simpl.
    rewrite (Hext (copy_item cfg destination)
               (Transfer.item cfg destination Shutil.copy2))
      by (intros; apply copy_item_transfer).
    rewrite (Hext (move_item cfg destination)
               (Transfer.item cfg destination Shutil.move))
      by (intros; apply move_item_transfer).
    done.
  - intros action files s Hact. unfold Transfer.run.
    unfold mbind at 1 2, M_bind at 1 2, ProgressBar.new, ProgressBar.print,
      write, modify, get. simpl. set (s0 := emit _ _).
    destruct (transfer_loop_visits cfg destination action files s0 Hact)
      as (done & rest & Hfiles & Hrun).
    exists done, rest. split; [done|]. unfold mbind, M_bind.
    assert (visited (out s0) = visited (out s)) as Hv0.
    { unfold s0. simpl. rewrite visited_app. simpl. by rewrite app_nil_r. }
    destruct (for_each _ files s0) as [[] s1|e s1].
    + destruct Hrun as (-> & Hv). split; [done|]. split; [done|]. simpl.
      rewrite !visited_app, Hv, Hv0. simpl. by rewrite !app_nil_r.
    + destruct Hrun as (f & rest' & -> & Hv). exists f, rest'.
      split; [done|]. by rewrite Hv, Hv0.
  - intros action file f t a l s. apply transfer_item_prepared.
  - intros file f t a l s Hl Ht Ha Hbase Hdir Hfree.
    set (folder := Spec.primary_artist cfg a) in *.
    set (target := Transfer.destination_path cfg destination a file) in *.
    assert (Path.key target = Path.key (Path.join destination folder)
                              ++ [Path.basename file]) as Hkey.
    { unfold target, Transfer.destination_path, Path.join3.
      apply key_join_name; [done|apply basename_no_sep]. }
    assert (target ≠ []) as Hne by (by apply join_nonempty).
    assert (Os.parent_check (Path.key target) s = None) as Hpar.
    { rewrite Hkey. apply parent_check_dir. by apply isdir_key in Hdir as [? _]. }
    rewrite copy_item_transfer, move_item_transfer.
    destruct (transfer_item_prepared cfg destination Shutil.copy2 file f t a l s)
      as [-> _]; [done..|by rewrite folder_step_existing|].
    destruct (transfer_item_prepared cfg destination Shutil.move file f t a l s)
      as [-> _]; [done..|by rewrite folder_step_existing|].
    rewrite folder_step_existing by done. fold folder target. simpl.
    unfold mbind, M_bind, try_except.
    rewrite (copy2_file file target _ f); [|exact Hl|done|exact Hpar|by left].
    rewrite (move_file file target _ f); [|exact Hl|done|exact Hpar|exact Hfree].
    done.
Qed.

(** The batch of the library copied: both files are bound and the list
    comes back. One turn each on the second file, whose artist has a
    folder already: the move is the guarded [shutil.move] at the
    destination path; both turns put the file under that folder, the move
    takes the source away. *)
Lemma copy_and_move_differ_in_action_only_witness :
  (∃ done rest, [Sample.one; Sample.two] = done ++ rest ∧
     match Transfer.run Sample.cfg "/sorted" Shutil.copy2
             [Sample.one; Sample.two] (Sample.start Sample.library) with
     | Ok files' s' =>
         rest = [] ∧ files' = [Sample.one; Sample.two]
         ∧ visited (out s')
           = visited (out (Sample.start Sample.library))
             ++ [Sample.one; Sample.two]
     | Raise _ s' =>
         ∃ f rest', rest = f :: rest'
                    ∧ visited (out s')
                      = visited (out (Sample.start Sample.library))
                        ++ done ++ [f]
     end)
  ∧ raised (Transfer.item Sample.cfg "/sorted" Shutil.move Sample.two
              (Sample.start Sample.library)) = None
  ∧ fs (final (copy_item Sample.cfg "/sorted" Sample.two
                 (Sample.start Sample.library)))
    = <[Path.key (Transfer.destination_path Sample.cfg "/sorted" "Artist B"
                    Sample.two)
         := File (Sample.song "Artist B" "Song Two")]>
        (fs (Sample.start Sample.library))
  ∧ fs (final (move_item Sample.cfg "/sorted" Sample.two
                 (Sample.start Sample.library)))
    = <[Path.key (Transfer.destination_path Sample.cfg "/sorted" "Artist B"
                    Sample.two)
         := File (Sample.song "Artist B" "Song Two")]>
        (delete (Path.key Sample.two) (fs (Sample.start Sample.library)))
  ∧ out (final (copy_item Sample.cfg "/sorted" Sample.two
                  (Sample.start Sample.library)))
    = out (final (move_item Sample.cfg "/sorted" Sample.two
                    (Sample.start Sample.library))).
Proof.
  destruct (copy_and_move_differ_in_action_only Sample.cfg "/sorted")
    as (_ & Hrun & Hturn & Heffect).
  split; [|split].
  - apply (Hrun Shutil.copy2 [Sample.one; Sample.two]
             (Sample.start Sample.library)).
    intros a b. apply binds_nothing_quiet, quiet_copy2.
  - apply (Hturn Shutil.move Sample.two (Sample.song "Artist B" "Song Two")
             (Id3 [lit "Artist B"] [lit "Song Two"] []) "Artist B" []
             (Sample.start Sample.library)).
    + vm_compute. reflexivity.
    + reflexivity.
    + reflexivity.
    + vm_compute. reflexivity.
  - apply (Heffect Sample.two (Sample.song "Artist B" "Song Two")
             (Id3 [lit "Artist B"] [lit "Song Two"] []) "Artist B" []
             (Sample.start Sample.library)).
    + vm_compute. reflexivity.
    + reflexivity.
    + reflexivity.
    + vm_compute. discriminate.
    + vm_compute. reflexivity.
    + vm_compute. reflexivity.
Defined.

(** A copy that fails: the target exists and is write-protected. The
    error is logged, the turn ends normally and the file is in the list
    that comes back. *)
Example file_copy_keeps_failed_item :
  let target := "/sorted/Artist B/Artist B - Song Two.mp3" in
  let s := Sample.start
             (<[Path.key target := File (Mp3 Sample.frames true None true)]>
                Sample.library) in
  ∃ s', file_copy Sample.cfg "/sorted" [Sample.two] s = Ok [Sample.two] s'
        ∧ out s' = [Progress 0 1; Item Sample.two;
                    Log (FolderExists "Artist B");
                    Log (ErrorCopying Sample.two); Progress 1 1;
                    Log ProcessComplete; Log (Completed 1)]
        ∧ fs s' !! Path.key target = fs s !! Path.key target.
Proof.
  intros target s. eexists. split; [|split].
  - apply run_returned. vm_compute. reflexivity.
  - vm_compute. reflexivity.
  - vm_compute. reflexivity.
Qed.

(** A move that fails: a directory stands at the target path and holds
    an entry of the file's name. The error is logged, the file stays where
    it was and is in the list that comes back. *)
Example file_move_keeps_failed_item :
  let target := "/sorted/Artist B/Artist B - Song Two.mp3" in
  let inner := "/sorted/Artist B/Artist B - Song Two.mp3/Artist B - Song Two.mp3" in
  let s := Sample.start
             (<[Path.key inner := Dir]>
                (<[Path.key target := Dir]> Sample.library)) in
  ∃ s', file_move Sample.cfg "/sorted" [Sample.two] s = Ok [Sample.two] s'
        ∧ out s' = [Progress 0 1; Item Sample.two;
                    Log (FolderExists "Artist B");
                    Log (ErrorCopying Sample.two); Progress 1 1;
                    Log ProcessComplete; Log (Completed 1)]
        ∧ fs s' !! Path.key Sample.two = fs s !! Path.key Sample.two.
Proof.
  intros target inner s. eexists. split; [|split].
  - apply run_returned. vm_compute. reflexivity.
  - vm_compute. reflexivity.
  - vm_compute. reflexivity.
Qed.


(** ** Tagging from the name, in general *)

(** X2. The turn of [id3_correct] on a well named file that can be opened,
    has an ID3 header and can be written: it returns with the list as it
    was; the file holds the same audio and pictures; its artist is the
    trimmed text before [" - "] and its title the trimmed text after it
    without its last four characters, each written when it is not empty
    and absent from the file when it is; no other path is touched. *)
Theorem retag_follows_the_name cfg source files file f t s :
  well_named cfg file →
  Os.lookup file s = Some (File f) → tags f = Some t → readonly f = false →
  ∃ a ti s',
    Re.split (Re.Lit " - ") (Path.basename file) = [a; ti]
    ∧ id3_item cfg source files file s = Ok files s'
    ∧ Os.lookup file s'
      = Some (File (Mp3 (audio f) (synced f)
                        (Some (Id3 (Mutagen.text_frame [Py.strip a])
                                   (Mutagen.text_frame
                                      [Py.strip (Py.drop_last4 ti)])
                                   (apic t)))
                        false))
    ∧ ∀ p, Path.key p ≠ Path.key file → Os.lookup p s' = Os.lookup p s.
Proof.
  intros Hwn Hl Ht Hro. pose proof Hwn as (_ & _ & _ & Hlen).
  rewrite (id3_item_tagged cfg source files file f t s) by done.
  unfold name_tags.
  destruct (Re.split (Re.Lit " - ") (Path.basename file))
    as [|a [|ti [|? ?]]]; try done.
  exists a, ti. eexists. split; [done|]. split; [done|]. split.
  - unfold Os.lookup. rewrite bool_decide_false by (by eapply lookup_nonempty).
    simpl. rewrite lookup_insert_eq. unfold set_tags, Mutagen.written.
    by rewrite Hro.
  - intros p Hp. unfold Os.lookup. simpl. by rewrite lookup_insert_ne.
Qed.

Lemma retag_follows_the_name_witness :
  ∃ a ti s',
    Re.split (Re.Lit " - ") (Path.basename Sample.two) = [a; ti]
    ∧ id3_item Sample.cfg "/music" [Sample.two] Sample.two
        (Sample.start Sample.library) = Ok [Sample.two] s'
    ∧ Os.lookup Sample.two s'
      = Some (File (Mp3 (audio (Sample.song "Artist B" "Song Two"))
                        (synced (Sample.song "Artist B" "Song Two"))
                        (Some (Id3 (Mutagen.text_frame [Py.strip a])
                                   (Mutagen.text_frame
                                      [Py.strip (Py.drop_last4 ti)])
                                   (apic (Id3 [lit "Artist B"]
                                              [lit "Song Two"] []))))
                        false))
    ∧ ∀ p, Path.key p ≠ Path.key Sample.two →
           Os.lookup p s' = Os.lookup p (Sample.start Sample.library).
Proof.
  apply (retag_follows_the_name Sample.cfg "/music" [Sample.two] Sample.two
           (Sample.song "Artist B" "Song Two")
           (Id3 [lit "Artist B"] [lit "Song Two"] [])
           (Sample.start Sample.library)).
  - split; [vm_compute; reflexivity|]. split; [vm_compute; reflexivity|].
    split; vm_compute; reflexivity.
  - vm_compute. reflexivity.
  - reflexivity.
  - reflexivity.
Defined.

(** A name with nothing between [" - "] and the extension: the title is
    empty, no title frame is written, and the title the file had is
    gone. *)
Example retag_empty_title_is_absent :
  let file := "/music/Artist A - .mp3" in
  let s := Sample.start
             (<[Path.key file := File (Sample.song "Someone" "Something")]>
                Sample.music) in
  ∃ s', id3_item Sample.cfg "/music" [lit file] file s = Ok [lit file] s'
        ∧ Os.lookup file s'
          = Some (File (Mp3 Sample.frames true
                          (Some (Id3 [lit "Artist A"] [] [])) false)).
Proof.
  intros file s. eexists. split.
  - apply run_returned. vm_compute. reflexivity.
  - vm_compute. reflexivity.
Qed.

(** ** Before the loop, and the loop on names that are all good *)

(** X3. The lines before the loop of [id3_correct] never raise, whatever
    the filesystem holds: every failure of [os.mkdir] is caught. When the
    source directory is there and holds no [_invalid] entry, the folder is
    created and nothing is logged; when the folder is missing afterwards
    (the source directory itself is missing, say), the filesystem is as it
    was and the line logged still says that the folder already exists. In
    both cases the bar stands at 0 of the length of the list. *)
Theorem prelude_never_raises source files s :
  ∃ s', id3_prelude source files s = Ok () s'
    ∧ pg_count s' = 0 ∧ pg_total s' = length files
    ∧ (Os.lookup (Path.join source "_invalid") s = None →
       Os.isdir source s = true →
       Os.isdir (Path.join source "_invalid") s' = true
       ∧ out s' = out s ++ [Progress 0 (length files)])
    ∧ (Os.isdir (Path.join source "_invalid") s' = false →
       fs s' = fs s
       ∧ out s' = out s ++ [Log InvalidDirExists; Progress 0 (length files)]).
Proof.
  assert (Path.sep ∉ lit "_invalid") as Hsub by (by apply (bool_decide_unpack _)).
  assert (Path.join source "_invalid" ≠ []) as Hne by (by apply join_nonempty).
  destruct (id3_prelude_outcome source files s)
    as (s' & Hrun & Hc & Ht & [[Hfs Hout]|(Hk & Hp & Hfs & Hout)]);
    exists s'; (split; [done|]); (split; [done|]); (split; [done|]); split.
  - intros Hfree [Hsrc _]%isdir_key. exfalso.
    revert Hrun. unfold id3_prelude, try_except, Os.mkdir, mbind, M_bind.
    rewrite bool_decide_false by done.
    unfold Os.lookup in Hfree. rewrite bool_decide_false in Hfree by done.
    rewrite Hfree. rewrite key_join_name by done.
    rewrite parent_check_dir by done.
    intros [= <-]. revert Hfs. simpl. rewrite <- key_join_name by done.
    intros Hfs. apply (f_equal (λ m, m !! Path.key (Path.join source "_invalid"))) in Hfs.
    by rewrite lookup_insert_eq, Hfree in Hfs.
  - done.
  - intros _ _. split; [|done]. unfold Os.isdir, Os.lookup.
    rewrite bool_decide_false by done. by rewrite Hfs, lookup_insert_eq.
  - intros Hno. exfalso. unfold Os.isdir, Os.lookup in Hno.
    rewrite bool_decide_false in Hno by done.
    by rewrite Hfs, lookup_insert_eq in Hno.
Qed.

(** X4. When every file of the list is well named and can be tagged,
    [id3_correct] comes to its end, returns the list it was given, has
    bound every file in order and leaves every file of the list, tagged,
    where it was: the loop loses items only where it removes one. *)
Theorem well_named_batch_is_kept cfg source files s :
  (∀ g, g ∈ files → well_named cfg g ∧ taggable g s) →
  ∃ s', id3_correct cfg source files s = Some (Ok files s')
        ∧ visited (out s') = visited (out s) ++ files
        ∧ progress (out s')
          = progress (out s)
            ++ ((λ j, (j, length files)) <$> seq 0 (S (length files)))
        ∧ ∀ g, g ∈ files → taggable g s'.
Proof.
  intros Hall. unfold id3_correct.
  destruct (id3_prelude_outcome source files s)
    as (s0 & Hpre & Hc0 & Ht0 & Hout0).
  rewrite Hpre.
  pose proof (prelude_keeps _ _ _ _ Hpre) as Hk0.
  pose proof (visited_prelude _ _ _ _ Hpre) as Hv0.
  destruct (id3_loop_tags cfg source files (length files) 0 0 s0)
    as (s1 & Hloop & Hk1 & Hout & Htot & Hcnt).
  { intros j g Hj Hg. apply list_elem_of_lookup_2 in Hg.
    destruct (Hall g Hg) as [? ?]. split; [done|]. by eapply taggable_kept. }
  { lia. }
  rewrite Nat.add_0_r in Hloop. rewrite Hloop. simpl.
  rewrite (lookup_ge_None_2 files (length files)) by lia.
  eexists. split; [reflexivity|]. simpl.
  rewrite drop_0, firstn_all in Hout. rewrite Ht0, Hc0 in Hout.
  split; [|split].
  - rewrite !visited_app, Hout, visited_app, visited_rounds, Hv0. simpl.
    by rewrite !app_nil_r.
  - rewrite !progress_app, Hout, progress_app, progress_rounds. simpl.
    rewrite app_nil_r.
    destruct Hout0 as [[_ ->]|(_ & _ & _ & ->)];
      rewrite progress_app; simpl; by rewrite app_nil_r, <- app_assoc.
  - intros g Hg. destruct (Hall g Hg) as [_ Htg].
    apply (taggable_kept g s s1); [by eapply files_kept_trans|done].
Qed.

Lemma well_named_batch_is_kept_witness :
  ∃ s', id3_correct Sample.cfg "/music" [Sample.one; Sample.two]
          (Sample.start Sample.library)
        = Some (Ok [Sample.one; Sample.two] s')
        ∧ visited (out s')
          = visited (out (Sample.start Sample.library))
            ++ [Sample.one; Sample.two]
        ∧ progress (out s')
          = progress (out (Sample.start Sample.library))
            ++ ((λ j, (j, length [Sample.one; Sample.two]))
                  <$> seq 0 (S (length [Sample.one; Sample.two])))
        ∧ ∀ g, g ∈ [Sample.one; Sample.two] → taggable g s'.
Proof.
  apply (well_named_batch_is_kept Sample.cfg "/music"
           [Sample.one; Sample.two] (Sample.start Sample.library)).
  intros g Hg. apply elem_of_cons in Hg as [->|Hg];
    [|apply elem_of_cons in Hg as [->|Hg]; [|by apply elem_of_nil in Hg]].
  - split.
    + split; [vm_compute; reflexivity|]. split; [vm_compute; reflexivity|].
      split; vm_compute; reflexivity.
    + exists (Sample.song "Artist A feat. Artist B" "Song One"),
        (Id3 [lit "Artist A feat. Artist B"] [lit "Song One"] []).
      split; [vm_compute; reflexivity|]. split; reflexivity.
  - split.
    + split; [vm_compute; reflexivity|]. split; [vm_compute; reflexivity|].
      split; vm_compute; reflexivity.
    + exists (Sample.song "Artist B" "Song Two"),
        (Id3 [lit "Artist B"] [lit "Song Two"] []).
      split; [vm_compute; reflexivity|]. split; reflexivity.
Defined.

Lemma prelude_never_raises_witness :
  ∃ s', id3_prelude "/music" [Sample.bad; Sample.one]
          (Sample.start Sample.music) = Ok () s'
        ∧ Os.isdir (Path.join "/music" "_invalid") s' = true
        ∧ out s' = out (Sample.start Sample.music)
                   ++ [Progress 0 (length [Sample.bad; Sample.one])].
Proof.
  destruct (prelude_never_raises "/music" [Sample.bad; Sample.one]
              (Sample.start Sample.music)) as (s' & Hrun & _ & _ & Hmade & _).
  exists s'. split; [exact Hrun|]. apply Hmade; vm_compute; reflexivity.
Defined.
